(** * Attribution aggregator of the Multimodal AI Agent

    A shallow embedding of [run_agent_and_get_attribution]
    (src/multimodal_agent.py, lines 21-78) together with the pieces of the
    Python runtime it calls: [str.lower], [str.strip], [str.split], the [in]
    operator on strings, [re.search] for the three section patterns and
    [random.randint].

    Text is a list of characters.  A character is a code point below 256
    (Rocq's [ascii]); on that range [lower_char] and [isspace] agree with
    CPython's [str.lower] and [str.isspace].

    The run is a tree over the draws of [random.randint].  It is read in
    three ways: [outcomes] lists every result it can have, [pr] gives the
    probability of an event when each draw is uniform, and [exec] runs it
    from the state of a generator, which is how a seed fixes the result. *)

From Stdlib Require Import ZArith QArith Ascii String List Lia Bool.
From stdpp Require Import gmap strings list.

Open Scope Z_scope.

(** ** Python strings *)

Abbreviation str := (list ascii).

(** A string literal of the source, as a list of characters. *)
Definition lit (s : string) : str := list_ascii_of_string s.

Definition code (c : ascii) : N := N_of_ascii c.

(** [str.lower] on one character: the 26 ASCII capitals and the Latin-1
    capitals 0xC0-0xDE (0xD7, the multiplication sign, has no case) move up
    by 32; every other character is unchanged. *)
Definition is_upper (c : ascii) : bool :=
  let n := code c in
  ((65 <=? n) && (n <=? 90))%N
  || ((192 <=? n) && (n <=? 222) && negb (n =? 215))%N.

Definition lower_char (c : ascii) : ascii :=
  if is_upper c then ascii_of_N (code c + 32) else c.

Definition lower (s : str) : str := map lower_char s.

(** [str.isspace] on one character: TAB, LF, VT, FF, CR, the separators
    0x1C-0x1F, the space, NEL (0x85) and the no-break space (0xA0). *)
Definition isspace (c : ascii) : bool :=
  let n := code c in
  (((9 <=? n) && (n <=? 13)) || ((28 <=? n) && (n <=? 32))
   || (n =? 133) || (n =? 160))%N.

Fixpoint lstrip (s : str) : str :=
  match s with
  | c :: s' => if isspace c then lstrip s' else s
  | [] => []
  end.

Definition rstrip (s : str) : str := rev (lstrip (rev s)).

(** [s.strip()] *)
Definition strip (s : str) : str := rstrip (lstrip s).

(** [w] is a prefix of [s]: the rest of [s] after [w], if so. *)
Fixpoint strip_prefix (w s : str) : option str :=
  match w, s with
  | [], _ => Some s
  | a :: w', c :: s' => if Ascii.eqb a c then strip_prefix w' s' else None
  | _ :: _, [] => None
  end.

Definition startswith (w s : str) : bool :=
  match strip_prefix w s with Some _ => true | None => false end.

(** [needle in hay] *)
Fixpoint contains (needle hay : str) : bool :=
  startswith needle hay
  || match hay with
     | [] => false
     | _ :: hay' => contains needle hay'
     end.

(** [s.split(sep)] for a separator of one character.  The result is never
    empty: a string without the separator gives the one-element list. *)
Fixpoint str_split (sep : ascii) (s : str) : list str :=
  match s with
  | [] => [[]]
  | c :: s' =>
      if Ascii.eqb c sep then [] :: str_split sep s'
      else match str_split sep s' with
           | l :: ls => (c :: l) :: ls
           | [] => [[c]]
           end
  end.

Definition newline : ascii := ascii_of_N 10.

(** ** Regular expressions

    The fragment of Python's [re] syntax that the three section patterns
    use, matched by backtracking in the order [re] tries alternatives.  The
    flag [re.DOTALL] is built into [LazyDotStar]: the dot matches every
    character, the line feed included. *)

Inductive regex : Type :=
| Lit (w : str)              (* literal text, escapes resolved *)
| LazyDotStar                (* .*?  *)
| Group (r : regex)          (* ( r ), the capturing group number 1 *)
| Lookahead (r : regex)      (* (?= r ) *)
| Alt (r1 r2 : regex)        (* r1 | r2 *)
| EndZ                       (* \Z *)
| Seq (r1 r2 : regex).

(** A match object; [group1] is [m.group(1)], [None] when the group took no
    part in the match. *)
Record match_obj : Type := Match { group1 : option str }.

(** Shortest extension first: ask the continuation at [s], and only when it
    fails consume one more character. *)
Fixpoint lazy_star {R} (k : str -> option R) (s : str) : option R :=
  match k s with
  | Some r => Some r
  | None => match s with
            | [] => None
            | _ :: s' => lazy_star k s'
            end
  end.

(** [matches r s g k]: match [r] at the front of [s] with group 1 currently
    [g], then continue with [k] on the rest. *)
Fixpoint matches (r : regex) (s : str) (g : option str)
    (k : str -> option str -> option match_obj) : option match_obj :=
  match r with
  | Lit w =>
      match strip_prefix w s with
      | Some s' => k s' g
      | None => None
      end
  | LazyDotStar => lazy_star (fun s' => k s' g) s
  | Group r1 =>
      matches r1 s g
        (fun s' _ => k s' (Some (firstn (length s - length s')%nat s)))
  | Lookahead r1 =>
      match matches r1 s g (fun _ g' => Some (Match g')) with
      | Some m => k s (group1 m)
      | None => None
      end
  | Alt r1 r2 =>
      match matches r1 s g k with
      | Some m => Some m
      | None => matches r2 s g k
      end
  | EndZ =>
      match s with
      | [] => k [] g
      | _ :: _ => None
      end
  | Seq r1 r2 => matches r1 s g (fun s' g' => matches r2 s' g' k)
  end.

(** [re.match(r, s)] *)
Definition re_match (r : regex) (s : str) : option match_obj :=
  matches r s None (fun _ g => Some (Match g)).

(** [re.search(r, s)]: the match at the leftmost position that has one; the
    position at the very end of the text is tried too. *)
Fixpoint re_search (r : regex) (s : str) : option match_obj :=
  match re_match r s with
  | Some m => Some m
  | None => match s with
            | [] => None
            | _ :: s' => re_search r s'
            end
  end.

(** The pattern [\*\*NAME:\*\*(.*?)(?=\*\*|\Z)]. *)
Definition bold : str := lit "**".

Definition header (name : string) : str := bold ++ lit name ++ lit ":" ++ bold.

Definition section_pattern (name : string) : regex :=
  Seq (Lit (header name))
      (Seq (Group LazyDotStar) (Lookahead (Alt (Lit bold) EndZ))).

(** ** Exceptions and the random source

    A run either returns a value or raises.  Its only interaction with the
    world after the model call is [random.randint]; a run is therefore a tree
    whose inner nodes are the draws. *)

Inductive exn : Type :=
| TypeError                  (* re.search on something that is not a str *)
| AttributeError             (* .strip() on the None of an unset group *)
| ValueError                 (* random.randint on an empty range *)
| ModelInvocationError (msg : str)    (* an Exception raised by agent.run *)
| ModelInterrupted (msg : str).       (* a BaseException raised by agent.run
                                         that is no Exception, such as
                                         KeyboardInterrupt or SystemExit *)

Inductive prog (A : Type) : Type :=
| Ret (a : A)
| Raise (e : exn)
| RandInt (a b : Z) (k : Z -> prog A).

Arguments Ret {A} a.
Arguments Raise {A} e.
Arguments RandInt {A} a b k.

Fixpoint bind {A B} (p : prog A) (f : A -> prog B) : prog B :=
  match p with
  | Ret a => f a
  | Raise e => Raise e
  | RandInt a b k => RandInt a b (fun z => bind (k z) f)
  end.

#[export] Instance prog_ret : MRet prog := @Ret.
#[export] Instance prog_bind : MBind prog := fun A B f p => bind p f.

(** [random.randint(a, b)] *)
Definition randint (a b : Z) : prog Z := RandInt a b Ret.

Abbreviation result A := (exn + A)%type.

(** *** Every result a run can have

    [random.randint(a, b)] is [randrange(a, b + 1)]: it raises [ValueError]
    when [b < a] and otherwise returns one of [a], ..., [b]. *)
Fixpoint outcomes {A} (p : prog A) : list (result A) :=
  match p with
  | Ret a => [inr a]
  | Raise e => [inl e]
  | RandInt a b k =>
      if b <? a then [inl ValueError]
      else flat_map (fun z => outcomes (k z)) (seqZ a (b - a + 1))
  end.

(** *** The probability of an event

    Each of the [b - a + 1] values of a draw has the same weight. *)
Definition indicator (b : bool) : Q := if b then 1%Q else 0%Q.

Definition Qsum (l : list Q) : Q := fold_right Qplus 0%Q l.

Fixpoint pr {A} (E : result A -> bool) (p : prog A) : Q :=
  match p with
  | Ret a => indicator (E (inr a))
  | Raise e => indicator (E (inl e))
  | RandInt a b k =>
      if b <? a then indicator (E (inl ValueError))
      else (Qsum (map (fun z => pr E (k z)) (seqZ a (b - a + 1)))
            / inject_Z (b - a + 1))%Q
  end.

(** *** A run from a generator state

    The generator behind [random] is an interface: [randbelow n] is
    CPython's [Random._randbelow], a number in [0, n) and the next state;
    [seed] is the state in which [random.seed(s)] leaves the module. *)
Class Generator (G : Type) : Type := {
  randbelow : Z -> G -> Z * G;
  seed : Z -> G;
  randbelow_range : forall n g, 0 < n -> 0 <= fst (randbelow n g) < n
}.

Fixpoint exec {A G} `{Generator G} (p : prog A) (g : G) : result A * G :=
  match p with
  | Ret a => (inr a, g)
  | Raise e => (inl e, g)
  | RandInt a b k =>
      if b <? a then (inl ValueError, g)
      else let '(r, g') := randbelow (b - a + 1) g in exec (k (a + r)) g'
  end.

(** A small generator that meets the interface: a linear congruential one. *)
Definition lcg_next (g : Z) : Z := (1103515245 * g + 12345) mod 2147483648.

#[export] Program Instance lcg : Generator Z := {|
  randbelow n g := (lcg_next g mod n, lcg_next g);
  seed s := s mod 2147483648
|}.
Next Obligation. intros n g Hn. simpl. apply Z.mod_pos_bound. exact Hn. Qed.

(** ** The aggregator *)

(** The values stored in the attribution dictionary. *)
Inductive value : Type :=
| VInt (n : Z)
| VStr (s : str)
| VList (l : list str).

#[export] Instance value_eq_dec : EqDecision value.
Proof. solve_decision. Defined.

(** What [result.content] can be. *)
Inductive py_content : Type :=
| PyStr (s : str)
| PyNone.

Record RunOutput : Type := { content : py_content }.

Inductive media : Type :=
| Video (filepath : str)
| Image (filepath : str).

(** The agent is the model call: it returns a [RunOutput] or raises. *)
Record Agent : Type := {
  run : str -> gmap string (list media) -> result RunOutput
}.

(** [m.group(1).strip()] *)
Definition group1_strip (m : match_obj) : prog str :=
  match group1 m with
  | Some s => Ret (strip s)
  | None => Raise AttributeError
  end.

(** Line 49: the marker phrases, looked for in the lowered text. *)
Definition search_content_found (full_content : str) : bool :=
  contains (lit "web search") (lower full_content)
  || contains (lit "external sources") (lower full_content).

Definition no_visual_findings : str :=
  lit "No specific visual findings detailed.".

(** Lines 41-78, for a [full_content] that is a [str]. *)
Definition simulated_parsing_and_scoring (full_content : str)
    : prog (gmap string value) :=
  let visual_match := re_search (section_pattern "VISUAL FINDINGS") full_content in
  let search_match := re_search (section_pattern "RESEARCH FINDINGS") full_content in
  let answer_match := re_search (section_pattern "FINAL ANSWER") full_content in
  search_score ←
    (if search_content_found full_content then randint 50 95
     else randint 5 50);
  let visual_score := 100 - search_score in
  visual_findings ←
    match visual_match with
    | Some m => group1_strip m
    | None => Ret no_visual_findings
    end;
  let search_queries :=
    [lit "(Query 1 - Simulated)"; lit "(Query 2 - Simulated)"] in
  let search_snippets :=
    [lit "(Snippet 1 from example.com)"; lit "(Snippet 2 from example.org)"] in
  final_answer ←
    match answer_match with
    | Some m => group1_strip m
    | None => Ret full_content
    end;
  let attribution_data : gmap string value :=
    list_to_map
      [("visual_score"%string, VInt visual_score);
       ("search_score"%string, VInt search_score);
       ("visual_findings"%string, VList (str_split newline visual_findings));
       ("search_queries"%string, VList search_queries);
       ("search_snippets"%string, VList search_snippets);
       ("final_answer"%string, VStr final_answer)] in
  Ret attribution_data.

(** Lines 21-78.  [agent.run] may raise, which is not caught here; the
    first use of [full_content], [re.search], raises [TypeError] unless it is
    a [str]. *)
Definition run_agent_and_get_attribution (agent : Agent) (prompt : str)
    (media_args : gmap string (list media)) : prog (gmap string value) :=
  match run agent prompt media_args with
  | inl e => Raise e
  | inr result =>
      let full_content := content result in
      match full_content with
      | PyStr text => simulated_parsing_and_scoring text
      | PyNone => Raise TypeError
      end
  end.

(** ** The run in closed form

    What the aggregator computes, written without the regular expression
    engine and without the monad; [re_search_section] and [aggregator_tree]
    below prove that the code above computes exactly this. *)

(** The shortest front of [s] that is followed by two asterisks or by the
    end of the text: the group of [(.*?)(?=\*\*|\Z)]. *)
Fixpoint until_bold (s : str) : str :=
  if startswith bold s then []
  else match s with
       | [] => []
       | c :: s' => c :: until_bold s'
       end.

(** The capture at the first place where the header [h] stands. *)
Fixpoint find_section (h s : str) : option str :=
  match strip_prefix h s with
  | Some rest => Some (until_bold rest)
  | None => match s with
            | [] => None
            | _ :: s' => find_section h s'
            end
  end.

(** The text after the first occurrence of [h]. *)
Fixpoint after_first (h s : str) : option str :=
  match strip_prefix h s with
  | Some rest => Some rest
  | None => match s with
            | [] => None
            | _ :: s' => after_first h s'
            end
  end.

Definition visual_findings_of (text : str) : str :=
  match find_section (header "VISUAL FINDINGS") text with
  | Some c => strip c
  | None => no_visual_findings
  end.

Definition final_answer_of (text : str) : str :=
  match find_section (header "FINAL ANSWER") text with
  | Some c => strip c
  | None => text
  end.

(** The dictionary returned for [text] when the draw gave [search_score]. *)
Definition attribution_data (text : str) (search_score : Z)
    : gmap string value :=
  <["visual_score"%string := VInt (100 - search_score)]>
  (<["search_score"%string := VInt search_score]>
  (<["visual_findings"%string :=
       VList (str_split newline (visual_findings_of text))]>
  (<["search_queries"%string :=
       VList [lit "(Query 1 - Simulated)"; lit "(Query 2 - Simulated)"]]>
  (<["search_snippets"%string :=
       VList [lit "(Snippet 1 from example.com)";
              lit "(Snippet 2 from example.org)"]]>
  (<["final_answer"%string := VStr (final_answer_of text)]> ∅))))).

(** The bounds of the draw, chosen by the marker phrases. *)
Definition draw_bounds (text : str) : Z * Z :=
  if search_content_found text then (50, 95) else (5, 50).

(** The keys of the dictionary the aggregator returns. *)
Definition record_keys : gset string :=
  {[ "visual_score"; "search_score"; "visual_findings"; "search_queries";
     "search_snippets"; "final_answer" ]}%string.

(** ** The vocabulary of the properties *)

(** [sub w s]: the text [w] occurs in [s]. *)
Definition sub (w s : str) : Prop := exists pre post, s = pre ++ w ++ post.

(** [bold_free s]: no two asterisks in a row anywhere in [s]. *)
Definition bold_free (s : str) : Prop := ~ sub bold s.

(** The agent's answer to this call is the text [text]. *)
Definition responds (agent : Agent) (prompt : str)
    (media_args : gmap string (list media)) (text : str) : Prop :=
  run agent prompt media_args = inr {| content := PyStr text |}.

(** The text after a capture is [tail]: nothing, or something that begins
    with two asterisks. *)
Definition boundary (tail : str) : Prop :=
  tail = [] \/ startswith bold tail = true.

(** No boundary inside [cap]: at no place of [cap] do two asterisks start. *)
Definition no_boundary_inside (cap tail : str) : Prop :=
  forall a b, cap = a ++ b -> b <> [] -> startswith bold (b ++ tail) = false.

(** [pre ++ h] is the first place where [h] stands in [s]. *)
Definition leftmost (h s pre : str) : Prop :=
  forall pre' rest', s = pre' ++ h ++ rest' -> (length pre <= length pre')%nat.

(** [s] is white space throughout. *)
Definition all_space (s : str) : Prop := forallb isspace s = true.

(** The characters that count as white space, by their numbers: TAB, LF,
    VT, FF, CR, the four separators, the space, NEL and the no-break
    space. *)
Definition whitespace : str :=
  map ascii_of_nat [9; 10; 11; 12; 13; 28; 29; 30; 31; 32; 133; 160]%nat.

Definition is_whitespace (c : ascii) : bool :=
  existsb (Ascii.eqb c) whitespace.

(** [s] consists of white space. *)
Definition blank (s : str) : Prop := Forall (fun c => In c whitespace) s.

(** [t] has no white space at either end. *)
Definition clean_ends (t : str) : Prop :=
  (forall c t', t = c :: t' -> ~ In c whitespace)
  /\ (forall c t', t = t' ++ [c] -> ~ In c whitespace).

(** [t] neither begins nor ends with white space. *)
Definition trimmed (t : str) : Prop :=
  (forall c t', t = c :: t' -> isspace c = false)
  /\ (forall c t', t = t' ++ [c] -> isspace c = false).

(** [sep.join(ls)] *)
Fixpoint join (sep : ascii) (ls : list str) : str :=
  match ls with
  | [] => []
  | l :: ls' => match ls' with
                | [] => l
                | _ :: _ => l ++ sep :: join sep ls'
                end
  end.

(** The letters that have two cases, capitals first: the 26 of ASCII, and
    those of Latin-1, whose capitals are at 192-214 and 216-222 and whose
    small forms are 32 above. *)
Definition capitals : str :=
  lit "ABCDEFGHIJKLMNOPQRSTUVWXYZ"
  ++ map ascii_of_nat (seq 192 23 ++ seq 216 7).

Definition smalls : str :=
  lit "abcdefghijklmnopqrstuvwxyz"
  ++ map ascii_of_nat (seq 224 23 ++ seq 248 7).

Definition letter_pairs : list (ascii * ascii) := combine capitals smalls.

(** The same character, or the two cases of one letter. *)
Definition same_letter (c d : ascii) : Prop :=
  c = d \/ In (c, d) letter_pairs \/ In (d, c) letter_pairs.

Definition same_letterb (c d : ascii) : bool :=
  Ascii.eqb c d
  || existsb (fun p => Ascii.eqb (fst p) c && Ascii.eqb (snd p) d) letter_pairs
  || existsb (fun p => Ascii.eqb (fst p) d && Ascii.eqb (snd p) c) letter_pairs.

(** Every character. *)
Definition all_chars : list ascii := map ascii_of_nat (seq 0 256).

(** The small form of a character by the table of [letter_pairs]. *)
Definition small_form (c : ascii) : ascii :=
  match find (fun p => Ascii.eqb (fst p) c) letter_pairs with
  | Some p => snd p
  | None => c
  end.

(** Equal up to the case of the letters, character by character. *)
Definition eq_ignore_case (a b : str) : Prop := Forall2 same_letter a b.

(** [w] occurs in [s] when the case of the letters is ignored. *)
Definition ci_sub (w s : str) : Prop :=
  exists pre mid post, s = pre ++ mid ++ post /\ eq_ignore_case mid w.

(** The event "the record's search score is [v]". *)
Definition search_score_is (v : Z) (r : result (gmap string value)) : bool :=
  match r with
  | inr d => bool_decide (d !! "search_score"%string = Some (VInt v))
  | inl _ => false
  end.

(** The uniform law on the integers [a], ..., [b]. *)
Definition uniform (a b v : Z) : Q :=
  if (a <=? v) && (v <=? b) then (1 / inject_Z (b - a + 1))%Q else 0%Q.

(** ** Sections as the specification words them

    A section runs from just after its header to the next of the three
    headers, or to the end of the text, and is stripped. *)

Definition headers : list str :=
  [header "VISUAL FINDINGS"; header "RESEARCH FINDINGS"; header "FINAL ANSWER"].

Fixpoint until_header (s : str) : str :=
  if existsb (fun h => startswith h s) headers then []
  else match s with
       | [] => []
       | c :: s' => c :: until_header s'
       end.

Fixpoint section_by_spec (h s : str) : option str :=
  match strip_prefix h s with
  | Some rest => Some (strip (until_header rest))
  | None => match s with
            | [] => None
            | _ :: s' => section_by_spec h s'
            end
  end.

(** ** Agents and texts to run the aggregator on *)

(** An agent that answers every call with the same text. *)
Definition scripted (text : str) : Agent :=
  {| run := fun _ _ => inr {| content := PyStr text |} |}.

(** An agent whose answer carries no text. *)
Definition silent : Agent :=
  {| run := fun _ _ => inr {| content := PyNone |} |}.

(** An agent whose call fails. *)
Definition failing (msg : str) : Agent :=
  {| run := fun _ _ => inl (ModelInvocationError msg) |}.

(** An agent whose call is interrupted. *)
Definition interrupted (msg : str) : Agent :=
  {| run := fun _ _ => inl (ModelInterrupted msg) |}.

(** Scenarios A, B and C of the specification. *)
Definition scenario_a : str :=
  lit "**VISUAL FINDINGS:**" ++ [newline] ++ lit "A red car." ++ [newline]
  ++ lit "**RESEARCH FINDINGS:**" ++ [newline]
  ++ lit "Car model confirmed via web search." ++ [newline]
  ++ lit "**FINAL ANSWER:**" ++ [newline] ++ lit "It is a 2020 sedan.".

Definition scenario_b : str := lit "Just a plain description with no headers.".

Definition scenario_c : str := [].

(** A final answer with an exponentiation in it. *)
Definition power_text : str := lit "**FINAL ANSWER:**2 ** 3 = 8".

(** A response that names the search in capitals. *)
Definition shouted_text : str := lit "Found via WEB SEARCH.".

(** Visual findings of two paragraphs with an empty line between them. *)
Definition two_paragraphs : str :=
  lit "**VISUAL FINDINGS:**" ++ [newline] ++ lit "A red car." ++ [newline]
  ++ [newline] ++ lit "A blue sky." ++ [newline]
  ++ lit "**FINAL ANSWER:**" ++ [newline] ++ lit "Done.".

(** Visual findings of two lines, with a word in bold in the first. *)
Definition car_text : str :=
  lit "**VISUAL FINDINGS:**" ++ [newline] ++ lit "- **red** car" ++ [newline]
  ++ lit "- blue sky" ++ [newline]
  ++ lit "**FINAL ANSWER:**" ++ [newline] ++ lit "A car.".

(** ** The script around the aggregator

    Lines 12-18 and 80-224: one run of the Streamlit script.  What the
    widgets return is an input; what the script shows is a list of events,
    one for each call of [st]; the files and the state of [random] are
    passed along.  A caption is carried by its event when the script builds
    it from data; the captions with pictographs are outside the characters
    of [str], and their events stand for the call alone. *)

(** [uploaded_file]: its [name] and what [read()] returns. *)
Record UploadedFile : Type := {
  file_name : str;
  file_read : list Byte.byte
}.

(** What the five widgets return in this run. *)
Record widgets : Type := {
  gemini_api_key : str;                      (* st.text_input *)
  media_type : str;                          (* st.selectbox *)
  uploaded_file : option UploadedFile;       (* st.file_uploader *)
  user_prompt : str;                         (* st.text_area *)
  button : bool                              (* st.button *)
}.

(** The exceptions of the script: those of the aggregator, a key missing
    from the dictionary, a score that cannot be divided by 100, and an index
    into an empty list. *)
Inductive script_exn : Type :=
| Aggregator (e : exn)
| KeyError (key : string)
| DivisionTypeError
| IndexError.

(** [isinstance(e, Exception)] *)
Definition is_exception (e : exn) : bool :=
  match e with
  | TypeError | AttributeError | ValueError | ModelInvocationError _ => true
  | ModelInterrupted _ => false
  end.

(** What [except Exception] on line 209 catches. *)
Definition caught (e : script_exn) : bool :=
  match e with
  | Aggregator e' => is_exception e'
  | KeyError _ | DivisionTypeError | IndexError => true
  end.

Inductive channel : Type := Visual | Search.

(** The label of a metric; the first is built from [media_type]. *)
Inductive metric_label : Type :=
| InsightScore (media_type : str)
| ResearchPowerScore.

Inductive event : Type :=
| st_set_page_config
| st_title
| st_sidebar_header
| st_text_input
| st_sidebar_caption
| st_selectbox
| st_file_uploader (label : str) (types : list str)
| st_video (path : str)
| st_image (path : str)
| st_text_area (placeholder : str)
| st_button
| st_warning (body : str)
| st_info (body : str)
| st_spinner (text : str)
| call_run_agent_and_get_attribution (prompt : str)
    (media_args : gmap string (list media))
| st_subheader
| st_markdown (body : value)
| st_rule                                     (* st.markdown("---") *)
| st_header
| st_caption
| st_columns
| st_metric (label : metric_label) (percent : value) (delta : str)
| st_progress (score : Z)                     (* st.progress(score / 100) *)
| st_markdown_relied (c : channel) (percent : value)
| st_error (e : script_exn)
| st_style.

(** The files on disk and the state of the [random] module. *)
Record world (G : Type) : Type := World {
  files : gmap str (list Byte.byte);
  random_state : G
}.

Arguments World {G} files random_state.
Arguments files {G} w.
Arguments random_state {G} w.

(** Line 122: [uploaded_file.name.split('.')[-1]]; the index fails on an
    empty list. *)
Definition suffix_of (file_name : str) : option str :=
  last (str_split "."%char file_name).

(** Lines 123-125: the name of the temporary file ends with a dot and the
    suffix; the part before, [temp_stem], is chosen by the system. *)
Definition media_path_of (temp_stem suffix : str) : str :=
  temp_stem ++ lit "." ++ suffix.

(** The prompt of lines 151-161 up to the kind of media. *)
Definition prompt_head : str :=
  [newline]
  ++ lit "                        You are a highly capable Multimodal Analyst. Your final output MUST contain three separate, clearly marked sections: **VISUAL FINDINGS**, **RESEARCH FINDINGS**, and **FINAL ANSWER**."
  ++ [newline]
  ++ lit "                        "
  ++ [newline]
  ++ lit "                        **TASK (Chain-of-Thought):**"
  ++ [newline]
  ++ lit "                        1. **Analyze the provided ".

(** ... from there up to the question. *)
Definition prompt_middle : str :=
  lit " meticulously.** Use object recognition, scene context, temporal flow (for videos), and any visible text to build a complete understanding. Output this summary under **VISUAL FINDINGS**."
  ++ [newline]
  ++ lit "                        2. **Perform web research** to gather necessary external context. Output the synthesis of the search results under **RESEARCH FINDINGS**."
  ++ [newline]
  ++ lit "                        3. **QUESTION:** Answer the user's question: ".

(** ... and after the question. *)
Definition prompt_tail : str :=
  lit ". The answer must fuse findings from both the **VISUAL FINDINGS** and **RESEARCH FINDINGS** sections. Output this final conclusion under **FINAL ANSWER**."
  ++ [newline]
  ++ lit "                        "
  ++ [newline]
  ++ lit "                        **OUTPUT INSTRUCTIONS:** Ensure your output is comprehensive, professional, and includes the three required markdown sections."
  ++ [newline]
  ++ lit "                        ".

(** Lines 151-161: the prompt sent to the model. *)
Definition prompt_text (media_type_lower user_prompt : str) : str :=
  prompt_head ++ media_type_lower ++ prompt_middle ++ user_prompt
  ++ prompt_tail.

(** Lines 164-167. *)
Definition media_args_of (media_type : str) (media_object : media)
    : gmap string (list media) :=
  if bool_decide (media_type = lit "Video")
  then {[ "videos"%string := [media_object] ]}
  else {[ "images"%string := [media_object] ]}.

(** What a stretch of the script has shown, and whether it went through. *)
Definition ui (A : Type) : Type := list event * (script_exn + A).

#[export] Instance ui_ret : MRet ui := fun A a => ([], inr a).
#[export] Instance ui_bind : MBind ui := fun A B f m =>
  match m with
  | (shown, inl e) => (shown, inl e)
  | (shown, inr a) => let '(shown', r) := f a in (shown ++ shown', r)
  end.

Definition emit (e : event) : ui unit := ([e], inr tt).

(** [d[key]] *)
Definition getitem (d : gmap string value) (key : string) : ui value :=
  match d !! key with
  | Some v => ([], inr v)
  | None => ([], inl (KeyError key))
  end.

(** [v / 100]: defined on numbers only; the quotient is kept as its
    numerator. *)
Definition over_100 (v : value) : ui Z :=
  match v with
  | VInt n => ([], inr n)
  | VStr _ | VList _ => ([], inl DivisionTypeError)
  end.

(** Lines 183-191 and 193-201: one column of the scorecard. *)
Definition column (c : channel) (label : metric_label) (key : string)
    (delta : str) (d : gmap string value) : ui unit :=
  percent ← getitem d key;
  emit (st_metric label percent delta);;
  score ← getitem d key;
  n ← over_100 score;
  emit (st_progress n);;
  percent' ← getitem d key;
  emit (st_markdown_relied c percent').

(** Lines 174-203: what is shown after the analysis. *)
Definition display (media_type : str) (d : gmap string value) : ui unit :=
  emit st_subheader;;
  final_answer ← getitem d "final_answer";
  emit (st_markdown final_answer);;
  emit st_rule;;
  emit st_header;;
  emit st_caption;;
  emit st_columns;;
  column Visual (InsightScore media_type) "visual_score"
    (lit "Direct Perception") d;;
  column Search ResearchPowerScore "search_score"
    (lit "External Knowledge") d;;
  emit st_rule.

(** Lines 146-213: the [try] statement without its [finally].  An
    [Exception] is caught and shown; any other exception goes on to the
    caller, after the [finally]. *)
Definition analyze {G} `{Generator G} (agent : Agent)
    (media_type user_prompt : str) (media_object : media) (g : G)
    : list event * G * option script_exn :=
  let media_type_lower := lower media_type in
  let prompt := prompt_text media_type_lower user_prompt in
  let media_args := media_args_of media_type media_object in
  let '(r, g') :=
    exec (run_agent_and_get_attribution agent prompt media_args) g in
  let '(shown, r') :=
    match r with
    | inr attribution_data => display media_type attribution_data
    | inl e => ([], inl (Aggregator e))
    end in
  let tried :=
    [st_spinner (lit "Processing " ++ lower media_type
                 ++ lit " and researching...");
     call_run_agent_and_get_attribution prompt media_args]
    ++ shown in
  match r' with
  | inr _ => (tried, g', None)
  | inl e =>
      if caught e
      then (tried ++ [st_error e], g', None)   (* except Exception as e *)
      else (tried, g', Some e)
  end.

(** Lines 120-215: the branch for an uploaded file. *)
Definition with_upload {G} `{Generator G} (agent : Agent) (temp_stem : str)
    (w : widgets) (f : UploadedFile) (st : world G)
    : list event * world G * option script_exn :=
  match suffix_of (file_name f) with
  | None => ([], st, Some IndexError)
  | Some suffix =>
      let media_path := media_path_of temp_stem suffix in
      let written := <[media_path := file_read f]> (files st) in
      let '(player, media_object) :=
        if bool_decide (media_type w = lit "Video")
        then (st_video media_path, Video media_path)
        else (st_image media_path, Image media_path) in
      let asked :=
        [player;
         st_text_area (lit "Ask any question related to the "
                       ++ lower (media_type w)
                       ++ lit " - the AI Agent will analyze it and search the web if needed");
         st_button] in
      if button w then
        if bool_decide (user_prompt w = [])
        then (asked ++ [st_warning (lit "Please enter your question.")],
              World written (random_state st), None)
        else
          let '(shown, g', uncaught) :=
            analyze agent (media_type w) (user_prompt w) media_object
              (random_state st) in
          (* finally: Path(media_path).unlink(missing_ok=True) *)
          (asked ++ shown, World (delete media_path written) g', uncaught)
      else (asked, World written (random_state st), None)
  end.

(** Lines 12-224: the whole script.  [initialize_agent] builds the agent
    from the key. *)
Definition script {G} `{Generator G} (initialize_agent : str -> Agent)
    (temp_stem : str) (w : widgets) (st : world G)
    : list event * world G * option script_exn :=
  let top :=
    [st_set_page_config; st_title; st_sidebar_header; st_text_input;
     st_sidebar_caption] in
  if bool_decide (gemini_api_key w = [])
  then (top ++ [st_warning (lit "Please enter your Gemini API key to continue.");
                st_style], st, None)
  else
    let agent := initialize_agent (gemini_api_key w) in
    let uploader :=
      if bool_decide (media_type w = lit "Video")
      then st_file_uploader (lit "Upload a video file")
             [lit "mp4"; lit "mov"; lit "avi"]
      else st_file_uploader (lit "Upload an image file")
             [lit "jpg"; lit "jpeg"; lit "png"] in
    match uploaded_file w with
    | Some f =>
        let '(shown, st', failure) := with_upload agent temp_stem w f st in
        (top ++ [st_selectbox; uploader] ++ shown
         ++ match failure with Some _ => [] | None => [st_style] end,
         st', failure)
    | None =>
        (top ++ [st_selectbox; uploader;
                 st_info (lit "Please upload a " ++ lower (media_type w)
                          ++ lit " to begin analysis.");
                 st_style], st, None)
    end.

(** ** The script in closed form, and the vocabulary of its properties *)

(** Lines 128-133: the media object built for the temporary file. *)
Definition media_object_of (media_type media_path : str) : media :=
  if bool_decide (media_type = lit "Video") then Video media_path
  else Image media_path.

(** What [display] shows for the record of [text] with the search score
    [s]. *)
Definition scorecard (media_type text : str) (s : Z) : list event :=
  [st_subheader; st_markdown (VStr (final_answer_of text)); st_rule;
   st_header; st_caption; st_columns;
   st_metric (InsightScore media_type) (VInt (100 - s))
     (lit "Direct Perception");
   st_progress (100 - s);
   st_markdown_relied Visual (VInt (100 - s));
   st_metric ResearchPowerScore (VInt s) (lit "External Knowledge");
   st_progress s;
   st_markdown_relied Search (VInt s);
   st_rule].

(** What the script shows down to the button, for an uploaded file. *)
Definition page_front (w : widgets) (media_path : str) : list event :=
  [st_set_page_config; st_title; st_sidebar_header; st_text_input;
   st_sidebar_caption; st_selectbox;
   if bool_decide (media_type w = lit "Video")
   then st_file_uploader (lit "Upload a video file")
          [lit "mp4"; lit "mov"; lit "avi"]
   else st_file_uploader (lit "Upload an image file")
          [lit "jpg"; lit "jpeg"; lit "png"];
   if bool_decide (media_type w = lit "Video") then st_video media_path
   else st_image media_path;
   st_text_area (lit "Ask any question related to the "
                 ++ lower (media_type w)
                 ++ lit " - the AI Agent will analyze it and search the web if needed");
   st_button].

(** The calls of the aggregator among the events, in order. *)
Definition calls (shown : list event)
    : list (str * gmap string (list media)) :=
  flat_map (fun ev =>
    match ev with
    | call_run_agent_and_get_attribution prompt media_args =>
        [(prompt, media_args)]
    | _ => []
    end) shown.

(** The events that show a result of the analysis. *)
Definition is_result (ev : event) : bool :=
  match ev with
  | st_subheader | st_markdown _ | st_rule | st_header | st_caption
  | st_columns | st_metric _ _ _ | st_progress _ | st_markdown_relied _ _ =>
      true
  | _ => false
  end.

(** [s.endswith(w)] *)
Definition endswith (w s : str) : bool := startswith (rev w) (rev s).

(** All the ways to cut [h] in two. *)
Fixpoint splits (h : str) : list (str * str) :=
  ([], h) :: match h with
             | [] => []
             | c :: t => map (fun p => (c :: fst p, snd p)) (splits t)
             end.

Definition proper (p : str * str) : bool :=
  match p with
  | (_ :: _, _ :: _) => true
  | _ => false
  end.

(** A front part of [h] ends [x], so that [h] could go on after [x]. *)
Definition hangs_over_end (h x : str) : bool :=
  existsb (fun p => proper p && endswith (fst p) x) (splits h).

(** A back part of [h] starts [y], so that [h] could begin before [y]. *)
Definition hangs_over_start (h y : str) : bool :=
  existsb (fun p => proper p && startswith (snd p) y) (splits h).

(** * Lemmas *)

(** ** Prefixes and occurrences *)

Section StringFacts.

Lemma strip_prefix_Some w s r : strip_prefix w s = Some r <-> s = w ++ r.
Proof.
  revert s; induction w as [|a w IH]; intros s; simpl.
  - split; [intros [= ->]; reflexivity | intros ->; reflexivity].
  - destruct s as [|c s]; [split; discriminate|].
    destruct (Ascii.eqb_spec a c) as [->|Hne].
    + rewrite IH. split; [intros ->; reflexivity | intros [= ->]; reflexivity].
    + split; [discriminate | intros [= E _]; congruence].
Qed.

Lemma startswith_true w s : startswith w s = true <-> exists r, s = w ++ r.
Proof.
  unfold startswith. destruct (strip_prefix w s) as [r|] eqn:E.
  - apply strip_prefix_Some in E. split; eauto.
  - split; [discriminate|]. intros [r Hr].
    apply strip_prefix_Some in Hr. congruence.
Qed.

Lemma contains_sub w s : contains w s = true <-> sub w s.
Proof.
  induction s as [|c s IH]; simpl.
  - rewrite orb_false_r, startswith_true. split.
    + intros [r Hr]. exists [], r. exact Hr.
    + intros (pre & post & E). destruct pre as [|p pre]; [|discriminate].
      exists post. exact E.
  - rewrite orb_true_iff, startswith_true, IH. split.
    + intros [[r Hr]|(pre & post & E)].
      * exists [], r. exact Hr.
      * exists (c :: pre), post. simpl. congruence.
    + intros (pre & post & E). destruct pre as [|p pre].
      * left. exists post. exact E.
      * right. exists pre, post. simpl in E. congruence.
Qed.

Lemma sub_app_r w a b : sub w b -> sub w (a ++ b).
Proof.
  intros (pre & post & ->). exists (a ++ pre), post.
  now rewrite <- app_assoc.
Qed.

Lemma sub_app_l w a b : sub w a -> sub w (a ++ b).
Proof.
  intros (pre & post & ->). exists pre, (post ++ b).
  now rewrite <- !app_assoc.
Qed.

Lemma sub_trans u v w : sub u v -> sub v w -> sub u w.
Proof.
  intros (p1 & q1 & ->) (p2 & q2 & ->).
  exists (p2 ++ p1), (q1 ++ q2). now rewrite <- !app_assoc.
Qed.

End StringFacts.

(** ** The section patterns as a scanner *)

Section Scanner.

(** The tail of every section pattern, from the state in which the header
    has just been read and [whole] is the text after it. *)
Let tail_k (whole : str) (s' : str) : option match_obj :=
  matches (Lookahead (Alt (Lit bold) EndZ)) s'
    (Some (firstn (length whole - length s')%nat whole))
    (fun _ g => Some (Match g)).

Lemma lazy_capture whole pre s :
  whole = pre ++ s ->
  lazy_star (tail_k whole) s = Some (Match (Some (pre ++ until_bold s))).
Proof.
  revert pre. induction s as [|c s IH]; intros pre ->.
  - simpl. unfold tail_k. simpl.
    rewrite app_nil_r, Nat.sub_0_r, firstn_all. reflexivity.
  - assert (Hcut : firstn (length (pre ++ c :: s) - length (c :: s))%nat
                     (pre ++ c :: s) = pre).
    { rewrite length_app, Nat.add_sub. apply take_app_length. }
    cbn [lazy_star until_bold].
    unfold tail_k at 1. cbn [matches]. rewrite Hcut.
    unfold startswith. destruct (strip_prefix bold (c :: s)) as [r|] eqn:E.
    + cbn. rewrite app_nil_r. reflexivity.
    + cbn. rewrite (IH (pre ++ [c])).
      * now rewrite <- app_assoc.
      * now rewrite <- app_assoc.
Qed.

Lemma re_match_section name s :
  re_match (section_pattern name) s =
  match strip_prefix (header name) s with
  | Some rest => Some (Match (Some (until_bold rest)))
  | None => None
  end.
Proof.
  unfold re_match, section_pattern. cbn [matches].
  destruct (strip_prefix (header name) s) as [rest|]; [|reflexivity].
  apply (lazy_capture rest [] rest). reflexivity.
Qed.

(** [re.search] on a section pattern is the scanner. *)
Lemma re_search_section name s :
  re_search (section_pattern name) s =
  option_map (fun c => Match (Some c)) (find_section (header name) s).
Proof.
  induction s as [|c s IH]; cbn [re_search find_section];
    rewrite re_match_section;
    destruct (strip_prefix (header name) _); try reflexivity.
  exact IH.
Qed.

End Scanner.

(** ** The shape of a run

    On a text the aggregator draws once and returns; the dictionary is a
    function of the text and of the number drawn. *)

Section RunShape.

Lemma aggregator_tree text :
  simulated_parsing_and_scoring text =
  RandInt (fst (draw_bounds text)) (snd (draw_bounds text))
    (fun s => Ret (attribution_data text s)).
Proof.
  unfold simulated_parsing_and_scoring, draw_bounds, attribution_data,
    visual_findings_of, final_answer_of.
  rewrite !re_search_section.
  destruct (search_content_found text);
    destruct (find_section (header "VISUAL FINDINGS") text);
    destruct (find_section (header "FINAL ANSWER") text);
    reflexivity.
Qed.

Lemma run_on_text agent prompt media_args text :
  responds agent prompt media_args text ->
  run_agent_and_get_attribution agent prompt media_args =
  simulated_parsing_and_scoring text.
Proof.
  unfold responds, run_agent_and_get_attribution. intros ->. reflexivity.
Qed.

Lemma draw_bounds_cases text :
  (search_content_found text = true /\ draw_bounds text = (50, 95))
  \/ (search_content_found text = false /\ draw_bounds text = (5, 50)).
Proof.
  unfold draw_bounds. destruct (search_content_found text); auto.
Qed.

Lemma draw_bounds_ordered text :
  fst (draw_bounds text) <= snd (draw_bounds text).
Proof.
  destruct (draw_bounds_cases text) as [[_ ->]|[_ ->]]; simpl; lia.
Qed.

(** A draw from a generator lands between the bounds. *)
Lemma exec_draw {A G} `{Generator G} (a b : Z) (f : Z -> A) (g : G) :
  a <= b ->
  exists z, a <= z <= b
    /\ fst (exec (RandInt a b (fun s => Ret (f s))) g) = inr (f z).
Proof.
  intros Hab. cbn [exec].
  destruct (Z.ltb_spec b a) as [Hlt|_]; [lia|].
  pose proof (randbelow_range (b - a + 1) g ltac:(lia)) as Hr.
  destruct (randbelow (b - a + 1) g) as [r g'] eqn:E. simpl in Hr.
  exists (a + r). split; [lia | reflexivity].
Qed.

(** Every run on a text returns a dictionary; none raises. *)
Lemma exec_on_text {G} `{Generator G} agent prompt media_args text (g : G) :
  responds agent prompt media_args text ->
  exists s,
    fst (draw_bounds text) <= s <= snd (draw_bounds text)
    /\ fst (exec (run_agent_and_get_attribution agent prompt media_args) g)
       = inr (attribution_data text s).
Proof.
  intros Hr. rewrite (run_on_text _ _ _ _ Hr), aggregator_tree.
  apply (exec_draw _ _ (attribution_data text)), draw_bounds_ordered.
Qed.

Lemma outcomes_on_text agent prompt media_args text :
  responds agent prompt media_args text ->
  outcomes (run_agent_and_get_attribution agent prompt media_args) =
  map (fun s => inr (attribution_data text s))
    (seqZ (fst (draw_bounds text))
       (snd (draw_bounds text) - fst (draw_bounds text) + 1)).
Proof.
  intros Hr. rewrite (run_on_text _ _ _ _ Hr), aggregator_tree.
  cbn [outcomes].
  destruct (Z.ltb_spec (snd (draw_bounds text)) (fst (draw_bounds text)))
    as [Hlt|_]; [pose proof (draw_bounds_ordered text); lia|].
  induction (seqZ _ _) as [|z l IH]; simpl; [reflexivity | now rewrite IH].
Qed.

(** Reading the dictionary. *)
Lemma lookup_visual_score text s :
  attribution_data text s !! "visual_score"%string = Some (VInt (100 - s)).
Proof. reflexivity. Qed.

Lemma lookup_search_score text s :
  attribution_data text s !! "search_score"%string = Some (VInt s).
Proof. reflexivity. Qed.

Lemma lookup_visual_findings text s :
  attribution_data text s !! "visual_findings"%string =
  Some (VList (str_split newline (visual_findings_of text))).
Proof. reflexivity. Qed.

Lemma lookup_final_answer text s :
  attribution_data text s !! "final_answer"%string =
  Some (VStr (final_answer_of text)).
Proof. reflexivity. Qed.

End RunShape.

(** ** What the scanner finds *)

Section SectionFacts.

Lemma startswith_bold_nil : startswith bold [] = false.
Proof. reflexivity. Qed.

Lemma until_bold_unique cap tail :
  boundary tail -> no_boundary_inside cap tail ->
  until_bold (cap ++ tail) = cap.
Proof.
  intros Hb. induction cap as [|c cap IH]; intros Hn.
  - simpl. destruct Hb as [->|Hb]; [reflexivity|].
    destruct tail; simpl in *; [reflexivity|]. now rewrite Hb.
  - change ((c :: cap) ++ tail) with (c :: (cap ++ tail)).
    pose proof (Hn [] (c :: cap) eq_refl ltac:(discriminate)) as H0.
    change ((c :: cap) ++ tail) with (c :: (cap ++ tail)) in H0.
    cbn [until_bold]. rewrite H0.
    f_equal. apply IH. intros a b -> Hb'.
    apply (Hn (c :: a) b); [reflexivity | exact Hb'].
Qed.

Lemma until_bold_spec rest :
  exists tail, rest = until_bold rest ++ tail
    /\ boundary tail /\ no_boundary_inside (until_bold rest) tail.
Proof.
  induction rest as [|c rest (tail & E & Hb & Hn)].
  - exists []. repeat split; [now left|]. intros a b Hab Hne.
    destruct a, b; simpl in Hab; congruence.
  - cbn [until_bold]. destruct (startswith bold (c :: rest)) eqn:Hs.
    + exists (c :: rest). repeat split; [now right|].
      intros a b Hab Hne. destruct a, b; simpl in Hab; congruence.
    + exists tail. split; [simpl; congruence|]. split; [exact Hb|].
      intros a b Hab Hne. destruct a as [|a0 a].
      * simpl in Hab. subst b. simpl. rewrite <- E. exact Hs.
      * injection Hab as -> Hab. apply (Hn a b Hab Hne).
Qed.

(** The capture holds no two asterisks in a row, so no header either. *)
Lemma until_bold_free rest : bold_free (until_bold rest).
Proof.
  destruct (until_bold_spec rest) as (tail & _ & _ & Hn).
  intros (pre & post & E).
  specialize (Hn pre (bold ++ post) E ltac:(discriminate)).
  rewrite <- app_assoc in Hn.
  assert (startswith bold (bold ++ post ++ tail) = true)
    by (apply startswith_true; eauto).
  congruence.
Qed.

Lemma find_section_None h s : find_section h s = None <-> ~ sub h s.
Proof.
  induction s as [|c s IH]; cbn [find_section].
  - destruct (strip_prefix h []) as [r|] eqn:E.
    + split; [discriminate|]. intros Hn. exfalso. apply Hn.
      apply strip_prefix_Some in E. exists [], r. exact E.
    + split; [|reflexivity]. intros _ (pre & post & E').
      destruct pre; [|discriminate]. simpl in E'.
      apply strip_prefix_Some in E'. congruence.
  - destruct (strip_prefix h (c :: s)) as [r|] eqn:E.
    + split; [discriminate|]. intros Hn. exfalso. apply Hn.
      apply strip_prefix_Some in E. exists [], r. exact E.
    + rewrite IH. split; intros Hn (pre & post & E'); apply Hn.
      * destruct pre as [|p pre].
        -- simpl in E'. apply strip_prefix_Some in E'. congruence.
        -- injection E' as -> ->. exists pre, post. reflexivity.
      * exists (c :: pre), post. simpl. congruence.
Qed.

Lemma find_section_elim h s c :
  find_section h s = Some c ->
  exists pre tail, s = pre ++ h ++ c ++ tail
    /\ leftmost h s pre /\ boundary tail /\ no_boundary_inside c tail.
Proof.
  revert c. induction s as [|x s IH]; intros c; cbn [find_section].
  - destruct (strip_prefix h []) as [r|] eqn:E; [|discriminate].
    intros [= <-]. apply strip_prefix_Some in E.
    destruct (until_bold_spec r) as (tail & Er & Hb & Hn).
    exists [], tail. repeat split; auto.
    + simpl. congruence.
    + intros ? ? _. simpl. lia.
  - destruct (strip_prefix h (x :: s)) as [r|] eqn:E.
    + intros [= <-]. apply strip_prefix_Some in E.
      destruct (until_bold_spec r) as (tail & Er & Hb & Hn).
      exists [], tail. repeat split; auto.
      * simpl. congruence.
      * intros ? ? _. simpl. lia.
    + intros Hf. destruct (IH _ Hf) as (pre & tail & Es & Hl & Hb & Hn).
      exists (x :: pre), tail. repeat split; auto.
      * simpl. congruence.
      * intros pre' rest' E'. destruct pre' as [|p pre'].
        -- simpl in E'. apply strip_prefix_Some in E'. congruence.
        -- injection E' as -> E'. simpl. apply le_n_S, (Hl _ _ E').
Qed.

Lemma find_section_intro h s pre cap tail :
  s = pre ++ h ++ cap ++ tail ->
  leftmost h s pre -> boundary tail -> no_boundary_inside cap tail ->
  find_section h s = Some cap.
Proof.
  intros Es Hl Hb Hn. revert s Es Hl.
  induction pre as [|p pre IH]; intros s Es Hl.
  - simpl in Es. apply strip_prefix_Some in Es.
    destruct s; cbn [find_section]; rewrite Es;
      now rewrite until_bold_unique.
  - subst s. change ((p :: pre) ++ h ++ cap ++ tail)
      with (p :: (pre ++ h ++ cap ++ tail)) in *.
    cbn [find_section].
    destruct (strip_prefix h (p :: pre ++ h ++ cap ++ tail)) as [r|] eqn:E.
    + apply strip_prefix_Some in E.
      specialize (Hl [] r E). simpl in Hl. lia.
    + apply IH; [reflexivity|].
      intros pre' rest' E'.
      specialize (Hl (p :: pre') rest'). simpl in Hl.
      apply le_S_n, Hl. now rewrite E'.
Qed.

Lemma find_section_present h s :
  sub h s -> exists c, find_section h s = Some c.
Proof.
  intros Hs. destruct (find_section h s) as [c|] eqn:E; [eauto|].
  apply find_section_None in E. contradiction.
Qed.

End SectionFacts.

(** ** Stripping, splitting, lowering *)

Section TextFacts.

Lemma lstrip_decomp s :
  exists ws, s = ws ++ lstrip s /\ all_space ws.
Proof.
  induction s as [|c s (ws & E & Hws)]; [exists []; split; reflexivity|].
  simpl. destruct (isspace c) eqn:Hc.
  - exists (c :: ws). split; [simpl; congruence|].
    unfold all_space. simpl. now rewrite Hc.
  - exists []. split; reflexivity.
Qed.

Lemma lstrip_head s c t : lstrip s = c :: t -> isspace c = false.
Proof.
  induction s as [|x s IH]; simpl; [discriminate|].
  destruct (isspace x) eqn:Hx; [exact IH | intros [= <- _]; exact Hx].
Qed.

Lemma lstrip_nil s : lstrip s = [] <-> all_space s.
Proof.
  unfold all_space. induction s as [|x s IH]; simpl; [tauto|].
  destruct (isspace x); simpl; [exact IH | split; discriminate].
Qed.

Lemma all_space_rev s : all_space (rev s) <-> all_space s.
Proof.
  unfold all_space. rewrite !forallb_forall.
  split; intros H c Hc; apply H; [apply in_rev in Hc | apply in_rev];
    now rewrite ?rev_involutive.
Qed.

Lemma all_space_app a b : all_space (a ++ b) <-> all_space a /\ all_space b.
Proof.
  unfold all_space. rewrite forallb_app, andb_true_iff. reflexivity.
Qed.

(** What [strip] leaves: the text between two runs of white space. *)
Lemma strip_spec s :
  exists ws1 ws2, s = ws1 ++ strip s ++ ws2
    /\ all_space ws1 /\ all_space ws2 /\ trimmed (strip s).
Proof.
  unfold strip, rstrip.
  destruct (lstrip_decomp s) as (ws1 & E1 & H1).
  destruct (lstrip_decomp (rev (lstrip s))) as (ws2 & E2 & H2).
  assert (E3 : lstrip s = rev (lstrip (rev (lstrip s))) ++ rev ws2).
  { rewrite <- rev_app_distr, <- E2. now rewrite rev_involutive. }
  exists ws1, (rev ws2). split; [congruence|].
  split; [exact H1|]. split; [now apply all_space_rev|].
  split.
  - intros c t' Et. rewrite Et in E3. simpl in E3.
    exact (lstrip_head _ _ _ E3).
  - intros c t' Et. apply (f_equal (@rev ascii)) in Et.
    rewrite rev_involutive, rev_app_distr in Et. simpl in Et.
    exact (lstrip_head _ _ _ Et).
Qed.

Lemma strip_nil s : strip s = [] <-> all_space s.
Proof.
  destruct (strip_spec s) as (ws1 & ws2 & E & H1 & H2 & [Hh _]).
  split.
  - intros Hn. rewrite E, Hn. simpl.
    apply all_space_app. split; assumption.
  - intros Hs. destruct (strip s) as [|c t] eqn:Et; [reflexivity|].
    rewrite E in Hs. apply all_space_app in Hs as [_ Hs].
    unfold all_space in Hs. simpl in Hs.
    rewrite (Hh c t eq_refl) in Hs. discriminate.
Qed.

Lemma str_split_nonempty sep s : str_split sep s <> [].
Proof.
  destruct s as [|c s]; simpl; [discriminate|].
  destruct (Ascii.eqb c sep); [discriminate|].
  destruct (str_split sep s); discriminate.
Qed.

Lemma join_cons sep l ls :
  ls <> [] -> join sep (l :: ls) = l ++ sep :: join sep ls.
Proof. destruct ls; [congruence | reflexivity]. Qed.

(** Joining the pieces with the separator gives the text back. *)
Lemma join_str_split sep s : join sep (str_split sep s) = s.
Proof.
  induction s as [|c s IH]; [reflexivity|]. simpl.
  pose proof (str_split_nonempty sep s) as Hne.
  destruct (Ascii.eqb_spec c sep) as [->|Hc].
  - rewrite join_cons by exact Hne. simpl. congruence.
  - destruct (str_split sep s) as [|l ls]; [congruence|].
    destruct ls as [|l' ls]; simpl in *; congruence.
Qed.

(** No piece holds the separator. *)
Lemma str_split_no_sep sep s :
  Forall (fun l => ~ In sep l) (str_split sep s).
Proof.
  induction s as [|c s IH]; simpl; [repeat constructor; auto|].
  destruct (Ascii.eqb_spec c sep) as [->|Hc].
  - constructor; [intros []|exact IH].
  - destruct (str_split sep s) as [|l ls]; [repeat constructor|].
    + intros [E|[]]. congruence.
    + inversion IH as [|? ? Hl Hls]; subst. constructor; [|exact Hls].
      intros [E|Hin]; [congruence | contradiction].
Qed.

(** One piece more than there are separators. *)
Lemma length_str_split sep s :
  length (str_split sep s) = S (count_occ ascii_dec s sep).
Proof.
  induction s as [|c s IH]; [reflexivity|]. simpl.
  pose proof (str_split_nonempty sep s) as Hne.
  destruct (Ascii.eqb_spec c sep) as [->|Hc]; destruct (ascii_dec _ _);
    try congruence; simpl; [congruence|].
  destruct (str_split sep s); [congruence | exact IH].
Qed.

(** The pieces are the only list of separator-free texts that joins to [s]. *)
Lemma str_split_join sep ls :
  ls <> [] -> Forall (fun l => ~ In sep l) ls ->
  str_split sep (join sep ls) = ls.
Proof.
  induction ls as [|l ls IH]; [congruence|]. intros _ Hf.
  inversion Hf as [|? ? Hl Hls]; subst.
  destruct ls as [|l' ls].
  - simpl. clear IH Hf Hls. induction l as [|c l IHl]; [reflexivity|].
    simpl. destruct (Ascii.eqb_spec c sep) as [->|Hc].
    + exfalso. apply Hl. now left.
    + rewrite IHl; [reflexivity|]. intros Hin. apply Hl. now right.
  - rewrite join_cons by discriminate.
    specialize (IH ltac:(discriminate) Hls).
    clear Hf Hls. induction l as [|c l IHl].
    + cbn [app str_split]. rewrite Ascii.eqb_refl. now rewrite IH.
    + change ((c :: l) ++ sep :: join sep (l' :: ls))
        with (c :: (l ++ sep :: join sep (l' :: ls))).
      cbn [str_split]. destruct (Ascii.eqb_spec c sep) as [->|Hc].
      * exfalso. apply Hl. now left.
      * rewrite IHl; [reflexivity|]. intros Hin. apply Hl. now right.
Qed.

Lemma lower_app a b : lower (a ++ b) = lower a ++ lower b.
Proof. apply map_app. Qed.

(** Looking for a lower-case phrase in the lowered text is looking for it
    with the case ignored. *)
Lemma in_all_chars c : In c all_chars.
Proof.
unfold all_chars. rewrite <- (ascii_nat_embedding c).
apply in_map, in_seq. pose proof (nat_ascii_bounded c). lia.
Qed.

Lemma same_letterb_spec c d : same_letterb c d = true <-> same_letter c d.
Proof.
assert (Hp : forall x y,
  existsb (fun p => Ascii.eqb (fst p) x && Ascii.eqb (snd p) y) letter_pairs
    = true <-> In (x, y) letter_pairs).
{ intros x y. rewrite existsb_exists. split.
  - intros ([a b] & Hin & Hab). simpl in Hab.
    apply andb_true_iff in Hab as [Ha Hb].
    apply Ascii.eqb_eq in Ha, Hb. now subst.
  - intros Hin. exists (x, y). split; [exact Hin|]. simpl.
    now rewrite !Ascii.eqb_refl. }
unfold same_letterb, same_letter.
rewrite !orb_true_iff, !Hp, Ascii.eqb_eq. tauto.
Qed.

(** [str.lower] is the small form of the table, on every character. *)
Lemma lower_char_small_form c : lower_char c = small_form c.
Proof.
assert (Htable : forallb (fun x =>
          Ascii.eqb (lower_char x) (small_form x)) all_chars = true)
  by (vm_compute; reflexivity).
rewrite forallb_forall in Htable.
apply Ascii.eqb_eq, Htable, in_all_chars.
Qed.

(** In the table a capital has one small form, a small form one capital,
    and no small form is a capital. *)
Lemma letter_pairs_small c d :
  In (c, d) letter_pairs -> small_form c = d /\ small_form d = d.
Proof.
assert (Htable : forallb (fun p =>
          Ascii.eqb (small_form (fst p)) (snd p)
          && Ascii.eqb (small_form (snd p)) (snd p)) letter_pairs = true)
  by (vm_compute; reflexivity).
rewrite forallb_forall in Htable. intros Hin.
apply Htable in Hin. simpl in Hin.
apply andb_true_iff in Hin as [H1 H2]. now apply Ascii.eqb_eq in H1, H2.
Qed.

Lemma letter_pairs_capital c d x :
  In (c, x) letter_pairs -> In (d, x) letter_pairs -> c = d.
Proof.
assert (Htable : forallb (fun p => forallb (fun q =>
          implb (Ascii.eqb (snd p) (snd q)) (Ascii.eqb (fst p) (fst q)))
          letter_pairs) letter_pairs = true)
  by (vm_compute; reflexivity).
rewrite forallb_forall in Htable. intros Hc Hd.
specialize (Htable _ Hc). rewrite forallb_forall in Htable.
specialize (Htable _ Hd). simpl in Htable.
rewrite Ascii.eqb_refl in Htable. now apply Ascii.eqb_eq.
Qed.

Lemma small_form_cases c :
  (small_form c = c /\ forall x, ~ In (c, x) letter_pairs)
  \/ In (c, small_form c) letter_pairs.
Proof.
unfold small_form.
destruct (find (fun p => Ascii.eqb (fst p) c) letter_pairs) as [[a b]|] eqn:E.
- right. apply find_some in E as [Hin Ha]. simpl in Ha.
  apply Ascii.eqb_eq in Ha. now subst a.
- left. split; [reflexivity|]. intros x Hin.
  pose proof (find_none _ _ E _ Hin) as Hx. simpl in Hx.
  now rewrite Ascii.eqb_refl in Hx.
Qed.

(** [str.lower] sends two characters to the same one exactly when they are
    the same letter. *)
Lemma lower_char_same_letter c d :
  lower_char c = lower_char d <-> same_letter c d.
Proof.
rewrite !lower_char_small_form. unfold same_letter. split.
- intros E.
  destruct (small_form_cases c) as [[Ec _]|Hc];
    destruct (small_form_cases d) as [[Ed _]|Hd].
  + left. congruence.
  + right. right. rewrite <- E, Ec in Hd. exact Hd.
  + right. left. rewrite E, Ed in Hc. exact Hc.
  + left. rewrite E in Hc. exact (letter_pairs_capital _ _ _ Hc Hd).
- intros [->|[Hin|Hin]]; [reflexivity| |];
    apply letter_pairs_small in Hin as [H1 H2]; congruence.
Qed.

Lemma lower_eq_ignore_case a b : lower a = lower b <-> eq_ignore_case a b.
Proof.
unfold eq_ignore_case. revert b.
induction a as [|c a IH]; intros [|d b]; simpl.
- split; [constructor | reflexivity].
- split; [discriminate | intros Hf; inversion Hf].
- split; [discriminate | intros Hf; inversion Hf].
- split.
  + intros [= Hc Ht]. constructor;
      [now apply lower_char_same_letter | now apply IH].
  + intros Hf. inversion Hf as [|? ? ? ? Hc Ht]; subst. f_equal;
      [now apply lower_char_same_letter | now apply IH].
Qed.

Lemma contains_lower w s :
  lower w = w -> (contains w (lower s) = true <-> ci_sub w s).
Proof.
intros Hw. rewrite contains_sub. unfold sub, ci_sub.
split.
- intros (pre & post & E).
  apply map_eq_app in E as (pre' & r & -> & <- & E).
  apply map_eq_app in E as (mid & post' & -> & Em & <-).
  exists pre', mid, post'. split; [reflexivity|].
  apply lower_eq_ignore_case. fold (lower mid) in Em. congruence.
- intros (pre & mid & post & -> & E).
  apply lower_eq_ignore_case in E.
  exists (lower pre), (lower post).
  rewrite !lower_app. congruence.
Qed.

Lemma search_content_found_spec text :
  search_content_found text = true <->
  ci_sub (lit "web search") text \/ ci_sub (lit "external sources") text.
Proof.
  unfold search_content_found. rewrite orb_true_iff.
  rewrite !contains_lower by reflexivity. reflexivity.
Qed.

End TextFacts.

(** ** The distribution of the score *)

Section Distribution.

Lemma Qsum_indicator (l : list Z) (v : Z) :
  NoDup l ->
  (Qsum (map (fun z => indicator (z =? v)) l)
   == indicator (bool_decide (v ∈ l)))%Q.
Proof.
  induction 1 as [|x l Hx Hl IH]; [reflexivity|].
  cbn [map Qsum fold_right]. fold (Qsum (map (fun z => indicator (z =? v)) l)).
  rewrite IH. destruct (Z.eqb_spec x v) as [->|Hne].
  - rewrite (bool_decide_eq_false_2 _ Hx).
    rewrite bool_decide_eq_true_2 by (left). reflexivity.
  - destruct (decide (v ∈ l)) as [Hin|Hnin].
    + rewrite (bool_decide_eq_true_2 (v ∈ l) Hin).
      rewrite (bool_decide_eq_true_2 (v ∈ x :: l)) by (now right).
      reflexivity.
    + rewrite (bool_decide_eq_false_2 (v ∈ l) Hnin).
      rewrite (bool_decide_eq_false_2 (v ∈ x :: l)); [reflexivity|].
      intros Hin. apply elem_of_cons in Hin as [E|Hin]; congruence.
Qed.

Lemma pr_search_score text v :
  (pr (search_score_is v) (simulated_parsing_and_scoring text)
   == uniform (fst (draw_bounds text)) (snd (draw_bounds text)) v)%Q.
Proof.
  rewrite aggregator_tree. cbn [pr].
  pose proof (draw_bounds_ordered text) as Hord.
  set (a := fst (draw_bounds text)) in *.
  set (b := snd (draw_bounds text)) in *.
  destruct (Z.ltb_spec b a) as [Hlt|_]; [lia|].
  erewrite map_ext; [rewrite (Qsum_indicator _ v (NoDup_seqZ _ _))|].
  2:{ intros z. cbn [pr search_score_is]. rewrite lookup_search_score.
      destruct (Z.eqb_spec z v) as [->|Hne].
      - now rewrite bool_decide_eq_true_2.
      - rewrite bool_decide_eq_false_2; [reflexivity | congruence]. }
  unfold uniform.
  destruct (Z.leb_spec a v) as [Hav|Hav];
    destruct (Z.leb_spec v b) as [Hvb|Hvb]; cbn [andb].
  1: rewrite bool_decide_eq_true_2 by (apply elem_of_seqZ; lia);
     reflexivity.
  all: rewrite bool_decide_eq_false_2 by (rewrite elem_of_seqZ; lia);
    unfold indicator, Qdiv; apply Qmult_0_l.
Qed.

End Distribution.

(** ** Headers, lines and keys *)

Section Sections.

Lemma absent_iff h s : ~ sub h s <-> contains h s = false.
Proof.
rewrite <- contains_sub. destruct (contains h s); split; congruence.
Qed.

Lemma bold_in_header name : sub bold (header name).
Proof. exists [], (lit name ++ lit ":" ++ bold). reflexivity. Qed.

Lemma bold_free_no_header cap name : bold_free cap -> ~ sub (header name) cap.
Proof.
intros Hf Hs. apply Hf. exact (sub_trans _ _ _ (bold_in_header name) Hs).
Qed.

Lemma str_split_app sep a b :
  str_split sep (a ++ sep :: b) = str_split sep a ++ str_split sep b.
Proof.
induction a as [|c a IH].
- simpl. now rewrite Ascii.eqb_refl.
- change ((c :: a) ++ sep :: b) with (c :: (a ++ sep :: b)).
  cbn [str_split]. rewrite IH.
  pose proof (str_split_nonempty sep a) as Hne.
  destruct (Ascii.eqb c sep); [reflexivity|].
  destruct (str_split sep a); [congruence | reflexivity].
Qed.

End Sections.

Section Record.

Lemma dom_attribution_data text s : dom (attribution_data text s) = record_keys.
Proof.
unfold attribution_data, record_keys.
rewrite !dom_insert_L, dom_empty_L. set_solver.
Qed.

Lemma lookup_research_findings text s :
  attribution_data text s !! "research_findings"%string = None.
Proof. reflexivity. Qed.

Lemma lookup_search_queries text s :
  attribution_data text s !! "search_queries"%string =
  Some (VList [lit "(Query 1 - Simulated)"; lit "(Query 2 - Simulated)"]).
Proof. reflexivity. Qed.

Lemma lookup_search_snippets text s :
  attribution_data text s !! "search_snippets"%string =
  Some (VList [lit "(Snippet 1 from example.com)";
               lit "(Snippet 2 from example.org)"]).
Proof. reflexivity. Qed.

End Record.

(** ** Further facts about the model *)

Section Further.

(** Whatever the generator, a run ends in one of the listed outcomes. *)
Lemma exec_in_outcomes {A G} `{Generator G} (p : prog A) (g : G) :
  In (fst (exec p g)) (outcomes p).
Proof.
revert g. induction p as [a|e|a b k IH]; intros g; cbn [exec outcomes].
- now left.
- now left.
- destruct (Z.ltb_spec b a) as [Hlt|Hle]; [now left|].
  pose proof (randbelow_range (b - a + 1) g ltac:(lia)) as Hr.
  destruct (randbelow (b - a + 1) g) as [r g']. simpl in Hr.
  apply in_flat_map. exists (a + r). split; [|apply IH].
  apply list_elem_of_In, elem_of_seqZ. lia.
Qed.

Lemma find_section_after h s :
  find_section h s = option_map until_bold (after_first h s).
Proof.
induction s as [|c s IH]; cbn [find_section after_first];
  destruct (strip_prefix h _); try reflexivity. exact IH.
Qed.

Lemma section_by_spec_after h s :
  section_by_spec h s =
  option_map (fun rest => strip (until_header rest)) (after_first h s).
Proof.
induction s as [|c s IH]; cbn [section_by_spec after_first];
  destruct (strip_prefix h _); try reflexivity. exact IH.
Qed.

Lemma header_starts_bold h s :
  In h headers -> startswith h s = true -> startswith bold s = true.
Proof.
intros Hin Hs. apply startswith_true in Hs as (r & ->).
apply startswith_true.
destruct Hin as [<-|[<-|[<-|[]]]]; unfold header; rewrite <- !app_assoc;
  eauto.
Qed.

Lemma until_header_spec rest :
  exists tail, rest = until_header rest ++ tail /\ boundary tail.
Proof.
induction rest as [|c rest (tail & E & Hb)].
- exists []. split; [reflexivity | now left].
- cbn [until_header].
  destruct (existsb (fun h => startswith h (c :: rest)) headers) eqn:Hx.
  + exists (c :: rest). split; [reflexivity|]. right.
    apply existsb_exists in Hx as (h & Hin & Hs).
    exact (header_starts_bold _ _ Hin Hs).
  + exists tail. split; [simpl; congruence | exact Hb].
Qed.

(** Where no two asterisks in a row start inside the section that the
    specification describes, the code extracts that very section. *)
Lemma find_section_agrees_with_spec h s :
  (forall rest tail, after_first h s = Some rest ->
     rest = until_header rest ++ tail ->
     no_boundary_inside (until_header rest) tail) ->
  option_map strip (find_section h s) = section_by_spec h s.
Proof.
intros Hn. rewrite find_section_after, section_by_spec_after.
destruct (after_first h s) as [rest|]; [|reflexivity]. simpl.
destruct (until_header_spec rest) as (tail & E & Hb).
f_equal. f_equal. rewrite E at 1.
apply until_bold_unique; [exact Hb|]. now apply Hn.
Qed.

(** The error paths are live: content that is not text raises [TypeError]
    at the first [re.search], and a failure of the model call passes
    through. *)
Example silent_agent_raises prompt media_args :
  run_agent_and_get_attribution silent prompt media_args = Raise TypeError.
Proof. reflexivity. Qed.

Example failing_agent_raises msg prompt media_args :
  run_agent_and_get_attribution (failing msg) prompt media_args
  = Raise (ModelInvocationError msg).
Proof. reflexivity. Qed.

(** Capitals in the text match the small letters of the phrase: the
    occurrence is shown letter by letter, and the code finds it. *)
Example capitals_are_found :
  ci_sub (lit "web search") shouted_text
  /\ search_content_found shouted_text = true
  /\ ~ sub (lit "web search") shouted_text.
Proof.
split; [|split; [reflexivity | apply absent_iff; reflexivity]].
exists (lit "Found via "), (lit "WEB SEARCH"), (lit ".").
split; [reflexivity|]. unfold eq_ignore_case, lit.
cbn [list_ascii_of_string].
repeat (constructor; [apply same_letterb_spec; reflexivity|]).
constructor.
Qed.

(** Scenario A of the specification. *)
Example scenario_a_sections :
  visual_findings_of scenario_a = lit "A red car."
  /\ str_split newline (visual_findings_of scenario_a) = [lit "A red car."]
  /\ final_answer_of scenario_a = lit "It is a 2020 sedan."
  /\ search_content_found scenario_a = true.
Proof. repeat split. Qed.

(** Scenario B of the specification. *)
Example scenario_b_sections :
  str_split newline (visual_findings_of scenario_b)
    = [lit "No specific visual findings detailed."]
  /\ final_answer_of scenario_b = scenario_b
  /\ search_content_found scenario_b = false.
Proof. repeat split. Qed.

(** Blank lines inside the visual section stay where they are. *)
Example blank_line_kept :
  str_split newline
    (visual_findings_of
       (lit "**VISUAL FINDINGS:**" ++ [newline] ++ lit "a"
        ++ [newline; newline] ++ lit "b" ++ [newline]))
  = [lit "a"; []; lit "b"].
Proof. reflexivity. Qed.

(** Without a new seed the second of two runs in a row starts from the
    state the first one left, and the scores need not agree. *)
Example unseeded_runs_differ :
  let p := run_agent_and_get_attribution (scripted scenario_b) [] ∅ in
  let first_run := exec p (seed 0 : Z) in
  let second_run := exec p (snd first_run) in
  fst first_run = inr (attribution_data scenario_b 22)
  /\ fst second_run = inr (attribution_data scenario_b 25).
Proof. split; reflexivity. Qed.

End Further.

(** ** More about draws, pieces and lines *)

Section Pieces.

(** Both ranges of the draw hold 46 numbers. *)
Lemma draw_width text :
  snd (draw_bounds text) - fst (draw_bounds text) + 1 = 46.
Proof.
destruct (draw_bounds_cases text) as [[_ ->]|[_ ->]]; reflexivity.
Qed.

(** A run on a text, step by step: one call of [randbelow 46]. *)
Lemma exec_text {G} `{Generator G} text (g : G) :
  exec (simulated_parsing_and_scoring text) g =
  (inr (attribution_data text
          (fst (draw_bounds text) + fst (randbelow 46 g))),
   snd (randbelow 46 g)).
Proof.
rewrite aggregator_tree. cbn [exec].
pose proof (draw_bounds_ordered text) as Hord.
destruct (Z.ltb_spec (snd (draw_bounds text)) (fst (draw_bounds text)))
  as [Hlt|_]; [lia|].
rewrite draw_width. destruct (randbelow 46 g) as [r g']. reflexivity.
Qed.

Lemma sub_refl s : sub s s.
Proof. exists [], []. now rewrite app_nil_r. Qed.

Lemma sub_strip s : sub (strip s) s.
Proof.
destruct (strip_spec s) as (ws1 & ws2 & E & _). exists ws1, ws2. exact E.
Qed.

Lemma sub_join sep ls l : In l ls -> sub l (join sep ls).
Proof.
induction ls as [|x ls IH]; [intros []|]. intros Hin.
destruct ls as [|y ls].
- destruct Hin as [->|[]]. apply sub_refl.
- rewrite join_cons by discriminate. destruct Hin as [->|Hin].
  + apply sub_app_l, sub_refl.
  + apply sub_app_r. change (sep :: join sep (y :: ls))
      with ([sep] ++ join sep (y :: ls)). apply sub_app_r, IH, Hin.
Qed.

(** Every piece of a split is a part of the text. *)
Lemma sub_str_split sep s l : In l (str_split sep s) -> sub l s.
Proof.
intros Hin. rewrite <- (join_str_split sep s). now apply sub_join.
Qed.

Lemma str_split_without sep s : ~ In sep s -> str_split sep s = [s].
Proof.
induction s as [|c s IH]; [reflexivity|]. intros Hn. simpl.
destruct (Ascii.eqb_spec c sep) as [->|_]; [exfalso; apply Hn; now left|].
rewrite IH; [reflexivity|]. intros Hin. apply Hn. now right.
Qed.

Lemma last_occurrence (sep : ascii) s :
  In sep s -> exists a b, s = a ++ sep :: b /\ ~ In sep b.
Proof.
induction s as [|c s IH]; [intros []|]. intros Hin.
destruct (in_dec ascii_dec sep s) as [Hs|Hs].
- destruct (IH Hs) as (a & b & -> & Hb). exists (c :: a), b. now split.
- destruct Hin as [->|Hin]; [|contradiction]. exists [], s. now split.
Qed.

(** The last piece of a split: the text after the last separator, or the
    whole text when there is none. *)
Lemma last_str_split sep s :
  exists l, last (str_split sep s) = Some l /\ ~ In sep l
    /\ ((~ In sep s /\ l = s) \/ (exists stem, s = stem ++ sep :: l)).
Proof.
destruct (in_dec ascii_dec sep s) as [Hs|Hs].
- destruct (last_occurrence sep s Hs) as (a & b & -> & Hb).
  exists b. rewrite str_split_app, (str_split_without sep b Hb).
  rewrite last_snoc. split; [reflexivity|]. split; [exact Hb|].
  right. now exists a.
- exists s. rewrite (str_split_without sep s Hs).
  split; [reflexivity|]. split; [exact Hs|]. now left.
Qed.

(** The first piece of a split of a text that starts with another
    character is not empty. *)
Lemma head_str_split sep c s :
  c <> sep -> exists l ls, str_split sep (c :: s) = (c :: l) :: ls.
Proof.
intros Hc. simpl. destruct (Ascii.eqb_spec c sep) as [E|_]; [contradiction|].
pose proof (str_split_nonempty sep s) as Hne.
destruct (str_split sep s) as [|l ls]; [congruence|]. eauto.
Qed.

Lemma isspace_newline : isspace newline = true.
Proof. reflexivity. Qed.

Lemma lstrip_space_app ws s : all_space ws -> lstrip (ws ++ s) = lstrip s.
Proof.
unfold all_space. induction ws as [|c ws IH]; [reflexivity|]. simpl.
intros Hc. apply andb_true_iff in Hc as [Hc Hws]. rewrite Hc. now apply IH.
Qed.

Lemma lstrip_id s :
  (forall c t, s = c :: t -> isspace c = false) -> lstrip s = s.
Proof.
destruct s as [|c t]; [reflexivity|]. intros Hh. simpl.
now rewrite (Hh c t eq_refl).
Qed.

(** The text between two runs of white space that neither begins nor ends
    with white space is what [strip] returns. *)
Lemma strip_unique s ws1 t ws2 :
  s = ws1 ++ t ++ ws2 -> all_space ws1 -> all_space ws2 -> trimmed t ->
  strip s = t.
Proof.
intros -> H1 H2 [Hh Hl]. unfold strip, rstrip.
rewrite (lstrip_space_app _ _ H1).
destruct t as [|c t'] eqn:Et.
- simpl. apply lstrip_nil in H2. rewrite H2. reflexivity.
- rewrite <- Et in *.
  assert (E1 : lstrip (t ++ ws2) = t ++ ws2).
  { apply lstrip_id. intros x y Exy. subst t. injection Exy as <- _.
    exact (Hh c t' eq_refl). }
  rewrite E1, rev_app_distr.
  rewrite (lstrip_space_app _ _ (proj2 (all_space_rev ws2) H2)).
  rewrite lstrip_id; [apply rev_involutive|].
  intros x y Exy. apply (Hl x (rev y)).
  rewrite <- (rev_involutive t), Exy. reflexivity.
Qed.

(** A capture that the scan returns has no boundary inside. *)
Lemma no_boundary_inside_scan cap tail :
  until_bold (cap ++ tail) = cap -> no_boundary_inside cap tail.
Proof.
intros E. destruct (until_bold_spec (cap ++ tail)) as (tail' & Et & _ & Hn).
rewrite E in Et, Hn. apply app_inv_head in Et. now subst tail'.
Qed.

(** A text is trimmed when its first and its last character are no white
    space. *)
Lemma trimmed_ends t :
  match t with [] => true | c :: _ => negb (isspace c) end = true ->
  match rev t with [] => true | c :: _ => negb (isspace c) end = true ->
  trimmed t.
Proof.
intros Hh Hl. split.
- intros c t' ->. now apply negb_true_iff.
- intros c t' ->. rewrite rev_app_distr in Hl. simpl in Hl.
  now apply negb_true_iff.
Qed.

Lemma is_whitespace_In c : is_whitespace c = true <-> In c whitespace.
Proof.
unfold is_whitespace. rewrite existsb_exists. split.
- intros (x & Hin & E). apply Ascii.eqb_eq in E. now subst.
- intros Hin. exists c. split; [exact Hin | apply Ascii.eqb_refl].
Qed.

(** [str.isspace] holds of the characters of [whitespace] and of no
    other. *)
Lemma isspace_whitespace c : isspace c = true <-> In c whitespace.
Proof.
assert (Htable : forallb (fun x =>
          Bool.eqb (isspace x) (is_whitespace x)) all_chars = true)
  by (vm_compute; reflexivity).
rewrite forallb_forall in Htable.
specialize (Htable c (in_all_chars c)). apply Bool.eqb_prop in Htable.
rewrite Htable. apply is_whitespace_In.
Qed.

Lemma blank_all_space s : blank s -> all_space s.
Proof.
unfold blank, all_space. intros Hb. apply forallb_forall. intros c Hin.
rewrite List.Forall_forall in Hb. apply isspace_whitespace, Hb, Hin.
Qed.

Lemma clean_ends_trimmed t : clean_ends t -> trimmed t.
Proof.
intros [Hh Hl]. split; intros c t' E; apply not_true_iff_false;
  intros Hc; apply isspace_whitespace in Hc.
- exact (Hh c t' E Hc).
- exact (Hl c t' E Hc).
Qed.

(** A text has clean ends when its first and its last character are no
    white space. *)
Lemma clean_ends_check t :
  match t with [] => true | c :: _ => negb (is_whitespace c) end = true ->
  match rev t with [] => true | c :: _ => negb (is_whitespace c) end = true ->
  clean_ends t.
Proof.
intros Hh Hl. split.
- intros c t' -> Hin. apply is_whitespace_In in Hin.
  rewrite Hin in Hh. discriminate.
- intros c t' -> Hin. apply is_whitespace_In in Hin.
  rewrite rev_app_distr in Hl. simpl in Hl. rewrite Hin in Hl. discriminate.
Qed.

Lemma blank_check s : forallb is_whitespace s = true -> blank s.
Proof.
intros Hs. apply List.Forall_forall. intros c Hin.
rewrite forallb_forall in Hs. apply is_whitespace_In, Hs, Hin.
Qed.

End Pieces.

(** ** Occurrences across a seam *)

Section Seams.

Lemma in_splits h h1 h2 : h = h1 ++ h2 -> In (h1, h2) (splits h).
Proof.
revert h. induction h1 as [|c h1 IH]; intros h ->.
- destruct h2; now left.
- simpl. right. apply in_map_iff. exists (h1, h2). split; [reflexivity|].
  now apply IH.
Qed.

Lemma endswith_true w s : (exists x, s = x ++ w) -> endswith w s = true.
Proof.
intros (x & ->). unfold endswith. apply startswith_true.
exists (rev x). apply rev_app_distr.
Qed.

(** An occurrence in [x ++ y] lies in [x], lies in [y], or crosses the
    seam. *)
Lemma sub_app_cases h x y :
  sub h (x ++ y) ->
  sub h x \/ sub h y
  \/ exists h1 h2, h = h1 ++ h2 /\ h1 <> [] /\ h2 <> []
       /\ (exists x', x = x' ++ h1) /\ (exists y', y = h2 ++ y').
Proof.
intros (pre & post & E).
apply app_eq_app in E as (l & [[-> E]|[-> ->]]).
- symmetry in E. apply app_eq_app in E as (l' & [[-> ->]|[-> ->]]).
  + left. exists pre, l'. reflexivity.
  + destruct l as [|c l].
    * right. left. exists [], post. reflexivity.
    * destruct l' as [|c' l'].
      -- left. exists pre, []. now rewrite !app_nil_r.
      -- right. right. exists (c :: l), (c' :: l').
         repeat split; try discriminate; eauto.
- right. left. exists l, post. reflexivity.
Qed.

(** When [h] neither lies in [x] nor hangs over its end, an occurrence in
    [x ++ y] lies in [y]. *)
Lemma sub_app_back h x y :
  contains h x = false -> hangs_over_end h x = false ->
  sub h (x ++ y) -> sub h y.
Proof.
intros Hc Hh Hs.
destruct (sub_app_cases _ _ _ Hs) as [Hx|[Hy|(h1 & h2 & E & H1 & H2 & Hx & _)]].
- apply contains_sub in Hx. congruence.
- exact Hy.
- exfalso. apply not_true_iff_false in Hh. apply Hh.
  apply existsb_exists. exists (h1, h2). split; [now apply in_splits|].
  simpl. rewrite (endswith_true _ _ Hx).
  destruct h1, h2; try congruence. reflexivity.
Qed.

(** When [h] neither lies in [y] nor hangs over its start, an occurrence in
    [x ++ y] lies in [x]. *)
Lemma sub_app_front h x y :
  contains h y = false -> hangs_over_start h y = false ->
  sub h (x ++ y) -> sub h x.
Proof.
intros Hc Hh Hs.
destruct (sub_app_cases _ _ _ Hs) as [Hx|[Hy|(h1 & h2 & E & H1 & H2 & _ & Hy)]].
- exact Hx.
- apply contains_sub in Hy. congruence.
- exfalso. apply not_true_iff_false in Hh. apply Hh.
  apply existsb_exists. exists (h1, h2). split; [now apply in_splits|].
  simpl. rewrite (proj2 (startswith_true _ _) Hy).
  destruct h1, h2; try congruence. reflexivity.
Qed.

End Seams.

(** ** The steps of the script *)

Section ScriptSteps.

Lemma suffix_of_total file_name : exists suffix, suffix_of file_name = Some suffix.
Proof.
destruct (last_str_split "."%char file_name) as (l & El & _). eauto.
Qed.

Lemma exec_without_text {G} `{Generator G} agent prompt media_args (g : G) :
  (forall text, ~ responds agent prompt media_args text) ->
  exists e,
    exec (run_agent_and_get_attribution agent prompt media_args) g
    = (inl e, g)
    /\ (run agent prompt media_args = inl e \/ e = TypeError).
Proof.
intros Hn. unfold run_agent_and_get_attribution, responds in *.
destruct (run agent prompt media_args) as [e|[[text|]]].
- exists e. split; [reflexivity | now left].
- exfalso. exact (Hn text eq_refl).
- exists TypeError. split; [reflexivity | now right].
Qed.

Lemma display_attribution media_type text s :
  display media_type (attribution_data text s)
  = (scorecard media_type text s, inr tt).
Proof. reflexivity. Qed.

Lemma analyze_on_text {G} `{Generator G} agent media_type user_prompt
    media_object text (g : G) :
  responds agent (prompt_text (lower media_type) user_prompt)
    (media_args_of media_type media_object) text ->
  analyze agent media_type user_prompt media_object g
  = ([st_spinner (lit "Processing " ++ lower media_type
                  ++ lit " and researching...");
      call_run_agent_and_get_attribution
        (prompt_text (lower media_type) user_prompt)
        (media_args_of media_type media_object)]
     ++ scorecard media_type text
          (fst (draw_bounds text) + fst (randbelow 46 g)),
     snd (randbelow 46 g), None).
Proof.
intros Hr. unfold analyze.
rewrite (run_on_text _ _ _ _ Hr), exec_text, display_attribution.
reflexivity.
Qed.

Lemma analyze_failed {G} `{Generator G} agent media_type user_prompt
    media_object (g : G) :
  (forall text,
     ~ responds agent (prompt_text (lower media_type) user_prompt)
         (media_args_of media_type media_object) text) ->
  exists e,
    exec (run_agent_and_get_attribution agent
            (prompt_text (lower media_type) user_prompt)
            (media_args_of media_type media_object)) g = (inl e, g)
    /\ (run agent (prompt_text (lower media_type) user_prompt)
          (media_args_of media_type media_object) = inl e
        \/ e = TypeError)
    /\ analyze agent media_type user_prompt media_object g
       = if is_exception e
         then ([st_spinner (lit "Processing " ++ lower media_type
                            ++ lit " and researching...");
                call_run_agent_and_get_attribution
                  (prompt_text (lower media_type) user_prompt)
                  (media_args_of media_type media_object);
                st_error (Aggregator e)], g, None)
         else ([st_spinner (lit "Processing " ++ lower media_type
                            ++ lit " and researching...");
                call_run_agent_and_get_attribution
                  (prompt_text (lower media_type) user_prompt)
                  (media_args_of media_type media_object)], g,
               Some (Aggregator e)).
Proof.
intros Hn. destruct (exec_without_text _ _ _ g Hn) as (e & E & Hrun).
exists e. split; [exact E|]. split; [exact Hrun|].
unfold analyze. rewrite E. cbn [caught].
destruct (is_exception e); reflexivity.
Qed.

Lemma responds_or_not agent prompt media_args :
  (exists text, responds agent prompt media_args text)
  \/ (forall text, ~ responds agent prompt media_args text).
Proof.
unfold responds. destruct (run agent prompt media_args) as [e|[[text|]]].
- right. intros text. discriminate.
- left. now exists text.
- right. intros text. discriminate.
Qed.

(** One run of the script with a key and an uploaded file. *)
Lemma script_with_upload {G} `{Generator G} initialize_agent temp_stem w f
    suffix (st : world G) :
  gemini_api_key w <> [] ->
  uploaded_file w = Some f ->
  suffix_of (file_name f) = Some suffix ->
  script initialize_agent temp_stem w st =
  let media_path := media_path_of temp_stem suffix in
  let written := <[media_path := file_read f]> (files st) in
  if button w then
    if bool_decide (user_prompt w = [])
    then (page_front w media_path
          ++ [st_warning (lit "Please enter your question."); st_style],
          World written (random_state st), None)
    else
      let tried :=
        analyze (initialize_agent (gemini_api_key w)) (media_type w)
          (user_prompt w) (media_object_of (media_type w) media_path)
          (random_state st) in
      (page_front w media_path
       ++ fst (fst tried)
       ++ match snd tried with Some _ => [] | None => [st_style] end,
       World (delete media_path written) (snd (fst tried)),
       snd tried)
  else (page_front w media_path ++ [st_style],
        World written (random_state st), None).
Proof.
intros Hkey Hup Hsuf. unfold script, with_upload, page_front, media_object_of.
rewrite (bool_decide_eq_false_2 _ Hkey), Hup, Hsuf. cbn zeta.
destruct (bool_decide (media_type w = lit "Video"));
  destruct (button w); try reflexivity;
  destruct (bool_decide (user_prompt w = [])); try reflexivity;
  destruct (analyze _ _ _ _ _) as [[shown g'] [e|]]; cbn [fst snd app];
  rewrite <- ?app_assoc; reflexivity.
Qed.

Lemma calls_page_front w media_path : calls (page_front w media_path) = [].
Proof.
unfold page_front. destruct (bool_decide (media_type w = lit "Video"));
  reflexivity.
Qed.

Lemma prompt_text_seams media_type_lower user_prompt :
  prompt_text media_type_lower user_prompt
  = (prompt_head ++ media_type_lower ++ prompt_middle)
    ++ (user_prompt ++ prompt_tail).
Proof. unfold prompt_text. now rewrite <- !app_assoc. Qed.

End ScriptSteps.

(** * Properties of the aggregator *)

(** ** The scores *)

(** C1.  On every text the run returns a record whose two scores add up to
    100, each of them between 0 and 100. *)
Theorem scores_sum_to_100 {G} `{Generator G} agent prompt media_args text
    (g : G) :
  responds agent prompt media_args text ->
  exists d v s,
    fst (exec (run_agent_and_get_attribution agent prompt media_args) g)
      = inr d
    /\ d !! "visual_score"%string = Some (VInt v)
    /\ d !! "search_score"%string = Some (VInt s)
    /\ v + s = 100 /\ 0 <= v <= 100 /\ 0 <= s <= 100.
Proof.
  intros Hr. destruct (exec_on_text _ _ _ _ g Hr) as (s & Hs & E).
  exists (attribution_data text s), (100 - s), s.
  split; [exact E|]. split; [apply lookup_visual_score|].
  split; [apply lookup_search_score|].
  destruct (draw_bounds_cases text) as [[_ Hb]|[_ Hb]]; rewrite Hb in Hs;
    simpl in Hs; lia.
Qed.

Lemma scores_sum_to_100_witness :
  responds (scripted scenario_a) [] ∅ scenario_a
  /\ exists d v s,
       fst (exec (run_agent_and_get_attribution (scripted scenario_a) [] ∅)
              (seed 0 : Z)) = inr d
       /\ d !! "visual_score"%string = Some (VInt v)
       /\ d !! "search_score"%string = Some (VInt s)
       /\ v + s = 100 /\ 0 <= v <= 100 /\ 0 <= s <= 100.
Proof.
  split; [reflexivity|].
  apply (scores_sum_to_100 (G := Z) _ _ _ scenario_a). reflexivity.
Defined.

(** C10.  On every text both scores lie between 5 and 95: neither is ever 0
    or 100. *)
Theorem scores_between_5_and_95 {G} `{Generator G} agent prompt media_args
    text (g : G) :
  responds agent prompt media_args text ->
  exists d v s,
    fst (exec (run_agent_and_get_attribution agent prompt media_args) g)
      = inr d
    /\ d !! "visual_score"%string = Some (VInt v)
    /\ d !! "search_score"%string = Some (VInt s)
    /\ 5 <= v <= 95 /\ 5 <= s <= 95.
Proof.
  intros Hr. destruct (exec_on_text _ _ _ _ g Hr) as (s & Hs & E).
  exists (attribution_data text s), (100 - s), s.
  split; [exact E|]. split; [apply lookup_visual_score|].
  split; [apply lookup_search_score|].
  destruct (draw_bounds_cases text) as [[_ Hb]|[_ Hb]]; rewrite Hb in Hs;
    simpl in Hs; lia.
Qed.

Lemma scores_between_5_and_95_witness :
  responds (scripted scenario_b) [] ∅ scenario_b
  /\ exists d v s,
       fst (exec (run_agent_and_get_attribution (scripted scenario_b) [] ∅)
              (seed 7 : Z)) = inr d
       /\ d !! "visual_score"%string = Some (VInt v)
       /\ d !! "search_score"%string = Some (VInt s)
       /\ 5 <= v <= 95 /\ 5 <= s <= 95.
Proof.
  split; [reflexivity|].
  apply (scores_between_5_and_95 (G := Z) _ _ _ scenario_b). reflexivity.
Defined.

(** C2.  The signal is true exactly when the text holds "web search" or
    "external sources" with the case of the letters ignored; the search
    score is then uniform on 50..95, and uniform on 5..50 otherwise. *)
Theorem tool_activity_signal_and_draw agent prompt media_args text :
  responds agent prompt media_args text ->
  (search_content_found text = true <->
     ci_sub (lit "web search") text \/ ci_sub (lit "external sources") text)
  /\ forall v,
       (pr (search_score_is v)
          (run_agent_and_get_attribution agent prompt media_args)
        == if search_content_found text then uniform 50 95 v
           else uniform 5 50 v)%Q.
Proof.
  intros Hr. split; [apply search_content_found_spec|].
  intros v. rewrite (run_on_text _ _ _ _ Hr), pr_search_score.
  unfold draw_bounds. destruct (search_content_found text); reflexivity.
Qed.

Lemma tool_activity_signal_and_draw_witness :
  responds (scripted shouted_text) [] ∅ shouted_text
  /\ (search_content_found shouted_text = true <->
        ci_sub (lit "web search") shouted_text
        \/ ci_sub (lit "external sources") shouted_text)
  /\ forall v,
       (pr (search_score_is v)
          (run_agent_and_get_attribution (scripted shouted_text) [] ∅)
        == if search_content_found shouted_text then uniform 50 95 v
           else uniform 5 50 v)%Q.
Proof.
split; [reflexivity|].
apply tool_activity_signal_and_draw. reflexivity.
Defined.

(** ** The sections *)

(** C3, as the code has it.  When the header of a section stands in the
    text, the match starts at its first occurrence and captures the text
    from just after it up to the next two asterisks in a row, whatever they
    open, or up to the end of the text; that capture is the only one of this
    kind and holds no header.  Stripped, it is the final answer; stripped and
    split into lines, the visual findings. *)
Theorem section_ends_at_next_bold {G} `{Generator G} agent prompt media_args
    text (g : G) (name : string) :
  responds agent prompt media_args text ->
  sub (header name) text ->
  exists pre cap tail d,
    text = pre ++ header name ++ cap ++ tail
    /\ leftmost (header name) text pre
    /\ boundary tail
    /\ no_boundary_inside cap tail
    /\ (forall pre' cap' tail',
          text = pre' ++ header name ++ cap' ++ tail' ->
          leftmost (header name) text pre' -> boundary tail' ->
          no_boundary_inside cap' tail' -> cap' = cap)
    /\ (forall other, ~ sub (header other) cap)
    /\ re_search (section_pattern name) text = Some (Match (Some cap))
    /\ fst (exec (run_agent_and_get_attribution agent prompt media_args) g)
       = inr d
    /\ (name = "VISUAL FINDINGS"%string ->
        d !! "visual_findings"%string
        = Some (VList (str_split newline (strip cap))))
    /\ (name = "FINAL ANSWER"%string ->
        d !! "final_answer"%string = Some (VStr (strip cap)))
    /\ trimmed (strip cap).
Proof.
intros Hr Hs.
destruct (find_section_present _ _ Hs) as (cap & Hf).
destruct (find_section_elim _ _ _ Hf) as (pre & tail & E & Hl & Hb & Hn).
destruct (exec_on_text _ _ _ _ g Hr) as (s & _ & Ex).
exists pre, cap, tail, (attribution_data text s).
repeat match goal with |- _ /\ _ => split end; try assumption.
- intros pre' cap' tail' E' Hl' Hb' Hn'.
  pose proof (find_section_intro _ _ _ _ _ E' Hl' Hb' Hn') as Hf'.
  congruence.
- intros other. apply bold_free_no_header.
  rewrite <- (until_bold_unique cap tail Hb Hn). apply until_bold_free.
- rewrite re_search_section, Hf. reflexivity.
- intros ->. rewrite lookup_visual_findings.
  unfold visual_findings_of. now rewrite Hf.
- intros ->. rewrite lookup_final_answer.
  unfold final_answer_of. now rewrite Hf.
- destruct (strip_spec cap) as (? & ? & _ & _ & _ & Ht). exact Ht.
Qed.

Lemma section_ends_at_next_bold_witness :
  responds (scripted scenario_a) [] ∅ scenario_a
  /\ sub (header "FINAL ANSWER") scenario_a
  /\ exists pre cap tail d,
       scenario_a = pre ++ header "FINAL ANSWER" ++ cap ++ tail
       /\ leftmost (header "FINAL ANSWER") scenario_a pre
       /\ boundary tail
       /\ no_boundary_inside cap tail
       /\ (forall pre' cap' tail',
             scenario_a = pre' ++ header "FINAL ANSWER" ++ cap' ++ tail' ->
             leftmost (header "FINAL ANSWER") scenario_a pre' ->
             boundary tail' -> no_boundary_inside cap' tail' -> cap' = cap)
       /\ (forall other, ~ sub (header other) cap)
       /\ re_search (section_pattern "FINAL ANSWER") scenario_a
          = Some (Match (Some cap))
       /\ fst (exec
                 (run_agent_and_get_attribution (scripted scenario_a) [] ∅)
                 (seed 0 : Z)) = inr d
       /\ ("FINAL ANSWER"%string = "VISUAL FINDINGS"%string ->
           d !! "visual_findings"%string
           = Some (VList (str_split newline (strip cap))))
       /\ ("FINAL ANSWER"%string = "FINAL ANSWER"%string ->
           d !! "final_answer"%string = Some (VStr (strip cap)))
       /\ trimmed (strip cap).
Proof.
split; [reflexivity|].
assert (Hs : sub (header "FINAL ANSWER") scenario_a)
  by (apply contains_sub; reflexivity).
split; [exact Hs|].
apply (section_ends_at_next_bold (G := Z) _ _ _ scenario_a);
  [reflexivity | exact Hs].
Defined.

(** C3, as the specification words it, fails: in [power_text] no header
    follows the final answer, so the section would run to the end of the
    text, and the code cuts it at the exponentiation sign. *)
Lemma section_ends_at_next_header_counterexample :
  sub (header "FINAL ANSWER") power_text
  /\ section_by_spec (header "FINAL ANSWER") power_text
     = Some (lit "2 ** 3 = 8")
  /\ exists d,
       fst (exec (run_agent_and_get_attribution (scripted power_text) [] ∅)
              (seed 0 : Z)) = inr d
       /\ d !! "final_answer"%string = Some (VStr (lit "2"))
       /\ lit "2" <> lit "2 ** 3 = 8".
Proof.
split; [apply contains_sub; reflexivity|].
split; [reflexivity|].
destruct (exec_on_text (G := Z) (scripted power_text) [] ∅ power_text
            (seed 0) eq_refl) as (s & _ & E).
exists (attribution_data power_text s).
split; [exact E|]. split; [|discriminate].
rewrite lookup_final_answer. reflexivity.
Qed.

(** C4, as the code has it.  When the header "FINAL ANSWER" is absent the
    final answer is the whole raw text, empty only if that text is empty;
    when the header is present the final answer is the stripped capture,
    empty only if the capture is blank. *)
Theorem final_answer_falls_back_to_text {G} `{Generator G} agent prompt
    media_args text (g : G) :
  responds agent prompt media_args text ->
  exists d answer,
    fst (exec (run_agent_and_get_attribution agent prompt media_args) g)
      = inr d
    /\ d !! "final_answer"%string = Some (VStr answer)
    /\ (~ sub (header "FINAL ANSWER") text ->
        answer = text /\ (answer = [] <-> text = []))
    /\ (forall cap,
          re_search (section_pattern "FINAL ANSWER") text
            = Some (Match (Some cap)) ->
          answer = strip cap /\ (answer = [] <-> all_space cap)).
Proof.
intros Hr. destruct (exec_on_text _ _ _ _ g Hr) as (s & _ & E).
exists (attribution_data text s), (final_answer_of text).
split; [exact E|]. split; [apply lookup_final_answer|].
unfold final_answer_of. split.
- intros Ha. apply find_section_None in Ha. rewrite Ha. tauto.
- intros cap. rewrite re_search_section.
  destruct (find_section (header "FINAL ANSWER") text) as [c|];
    [|discriminate].
  intros [= ->]. split; [reflexivity | apply strip_nil].
Qed.

Lemma final_answer_falls_back_to_text_witness :
  responds (scripted scenario_b) [] ∅ scenario_b
  /\ exists d answer,
       fst (exec (run_agent_and_get_attribution (scripted scenario_b) [] ∅)
              (seed 0 : Z)) = inr d
       /\ d !! "final_answer"%string = Some (VStr answer)
       /\ (~ sub (header "FINAL ANSWER") scenario_b ->
           answer = scenario_b /\ (answer = [] <-> scenario_b = []))
       /\ (forall cap,
             re_search (section_pattern "FINAL ANSWER") scenario_b
               = Some (Match (Some cap)) ->
             answer = strip cap /\ (answer = [] <-> all_space cap)).
Proof.
split; [reflexivity|].
apply (final_answer_falls_back_to_text (G := Z) _ _ _ scenario_b).
reflexivity.
Defined.

(** C4, as the specification words it, fails on the empty text: the header
    is absent, the final answer is the whole text, and that is empty. *)
Lemma final_answer_never_empty_counterexample :
  ~ sub (header "FINAL ANSWER") scenario_c
  /\ exists d,
       fst (exec (run_agent_and_get_attribution (scripted scenario_c) [] ∅)
              (seed 0 : Z)) = inr d
       /\ d !! "final_answer"%string = Some (VStr []).
Proof.
split; [apply absent_iff; reflexivity|].
destruct (exec_on_text (G := Z) (scripted scenario_c) [] ∅ scenario_c
            (seed 0) eq_refl) as (s & _ & E).
exists (attribution_data scenario_c s). split; [exact E|].
apply lookup_final_answer.
Qed.

(** C8.  When the header "VISUAL FINDINGS" is absent, the visual findings
    are the list of one element, the fallback sentence. *)
Theorem visual_findings_fallback {G} `{Generator G} agent prompt media_args
    text (g : G) :
  responds agent prompt media_args text ->
  ~ sub (header "VISUAL FINDINGS") text ->
  exists d,
    fst (exec (run_agent_and_get_attribution agent prompt media_args) g)
      = inr d
    /\ d !! "visual_findings"%string
       = Some (VList [lit "No specific visual findings detailed."]).
Proof.
intros Hr Ha. destruct (exec_on_text _ _ _ _ g Hr) as (s & _ & E).
exists (attribution_data text s). split; [exact E|].
rewrite lookup_visual_findings. unfold visual_findings_of.
apply find_section_None in Ha. rewrite Ha. reflexivity.
Qed.

Lemma visual_findings_fallback_witness :
  responds (scripted scenario_b) [] ∅ scenario_b
  /\ ~ sub (header "VISUAL FINDINGS") scenario_b
  /\ exists d,
       fst (exec (run_agent_and_get_attribution (scripted scenario_b) [] ∅)
              (seed 0 : Z)) = inr d
       /\ d !! "visual_findings"%string
          = Some (VList [lit "No specific visual findings detailed."]).
Proof.
split; [reflexivity|].
assert (Ha : ~ sub (header "VISUAL FINDINGS") scenario_b)
  by (apply absent_iff; reflexivity).
split; [exact Ha|].
apply (visual_findings_fallback (G := Z) _ _ _ scenario_b);
  [reflexivity | exact Ha].
Defined.

(** C9, as the code has it.  Let the header "VISUAL FINDINGS" stand first at
    [pre], let [cap] be the text from just after it up to the next two
    asterisks in a row or the end of the text, and [section] what is left of
    [cap] between the white space at its two ends.  Then the visual findings
    are the lines of [section] in their order: joined by line feeds they give
    [section] back, none holds a line feed, there is one more of them than
    line feeds, no other list of lines does this, and where two line feeds
    follow each other an empty line stands between the lines before and the
    lines after.  What follows the two asterisks is not among the lines. *)
Theorem visual_findings_lines {G} `{Generator G} agent prompt media_args
    text (g : G) (pre cap tail ws1 section ws2 : str) :
  responds agent prompt media_args text ->
  text = pre ++ header "VISUAL FINDINGS" ++ cap ++ tail ->
  leftmost (header "VISUAL FINDINGS") text pre ->
  boundary tail ->
  no_boundary_inside cap tail ->
  cap = ws1 ++ section ++ ws2 ->
  blank ws1 -> blank ws2 -> clean_ends section ->
  exists lines d,
    fst (exec (run_agent_and_get_attribution agent prompt media_args) g)
      = inr d
    /\ d !! "visual_findings"%string = Some (VList lines)
    /\ join newline lines = section
    /\ Forall (fun l => ~ In newline l) lines
    /\ length lines = S (count_occ ascii_dec section newline)
    /\ (forall ls, ls <> [] -> Forall (fun l => ~ In newline l) ls ->
          join newline ls = section -> ls = lines)
    /\ (forall a b, section = a ++ newline :: newline :: b ->
          exists before after,
            lines = before ++ [] :: after
            /\ before <> [] /\ after <> []
            /\ join newline before = a /\ join newline after = b).
Proof.
intros Hr Et Hl Hb Hn Ec H1 H2 Ht.
pose proof (find_section_intro _ _ _ _ _ Et Hl Hb Hn) as Hf.
pose proof (strip_unique _ _ _ _ Ec (blank_all_space _ H1)
              (blank_all_space _ H2) (clean_ends_trimmed _ Ht)) as Es.
destruct (exec_on_text _ _ _ _ g Hr) as (s & _ & E).
exists (str_split newline section), (attribution_data text s).
split; [exact E|].
split; [rewrite lookup_visual_findings; unfold visual_findings_of;
        now rewrite Hf, Es|].
split; [apply join_str_split|].
split; [apply str_split_no_sep|].
split; [apply length_str_split|].
split.
- intros ls Hne Hfa Hj. rewrite <- Hj. symmetry.
  now apply str_split_join.
- intros a b ->. exists (str_split newline a), (str_split newline b).
  split; [rewrite str_split_app; reflexivity|].
  split; [apply str_split_nonempty|]. split; [apply str_split_nonempty|].
  split; apply join_str_split.
Qed.

Lemma visual_findings_lines_witness :
  let cap := [newline] ++ lit "A red car." ++ [newline; newline]
             ++ lit "A blue sky." ++ [newline] in
  let tail := lit "**FINAL ANSWER:**" ++ [newline] ++ lit "Done." in
  let section := lit "A red car." ++ [newline; newline] ++ lit "A blue sky." in
  responds (scripted two_paragraphs) [] ∅ two_paragraphs
  /\ two_paragraphs = [] ++ header "VISUAL FINDINGS" ++ cap ++ tail
  /\ leftmost (header "VISUAL FINDINGS") two_paragraphs []
  /\ boundary tail
  /\ no_boundary_inside cap tail
  /\ cap = [newline] ++ section ++ [newline]
  /\ blank [newline] /\ blank [newline] /\ clean_ends section
  /\ exists lines d,
       fst (exec
              (run_agent_and_get_attribution (scripted two_paragraphs) [] ∅)
              (seed 0 : Z)) = inr d
       /\ d !! "visual_findings"%string = Some (VList lines)
       /\ join newline lines = section
       /\ Forall (fun l => ~ In newline l) lines
       /\ length lines = S (count_occ ascii_dec section newline)
       /\ (forall ls, ls <> [] -> Forall (fun l => ~ In newline l) ls ->
             join newline ls = section -> ls = lines)
       /\ (forall a b, section = a ++ newline :: newline :: b ->
             exists before after,
               lines = before ++ [] :: after
               /\ before <> [] /\ after <> []
               /\ join newline before = a /\ join newline after = b).
Proof.
intros cap tail section.
assert (Hl : leftmost (header "VISUAL FINDINGS") two_paragraphs [])
  by (intros pre' rest' _; simpl; lia).
assert (Hb : boundary tail) by (right; reflexivity).
assert (Hn : no_boundary_inside cap tail)
  by (apply no_boundary_inside_scan; reflexivity).
assert (Hw : blank [newline]) by (apply blank_check; reflexivity).
assert (Ht : clean_ends section) by (apply clean_ends_check; reflexivity).
split; [reflexivity|]. split; [reflexivity|]. split; [exact Hl|].
split; [exact Hb|]. split; [exact Hn|]. split; [reflexivity|].
split; [exact Hw|]. split; [exact Hw|]. split; [exact Ht|].
apply (visual_findings_lines (G := Z) (scripted two_paragraphs) [] ∅
         two_paragraphs (seed 0) [] cap tail [newline] section [newline]);
  [reflexivity | reflexivity | exact Hl | exact Hb | exact Hn | reflexivity
  | exact Hw | exact Hw | exact Ht].
Defined.

(** C9, as the specification words it, fails: the visual section of
    [car_text], from its header to the next one, has two lines, and the
    code, which stops at the bold word, stores a dash alone. *)
Lemma visual_lines_counterexample :
  sub (header "VISUAL FINDINGS") car_text
  /\ section_by_spec (header "VISUAL FINDINGS") car_text
     = Some (join newline [lit "- **red** car"; lit "- blue sky"])
  /\ exists d,
       fst (exec (run_agent_and_get_attribution (scripted car_text) [] ∅)
              (seed 0 : Z)) = inr d
       /\ d !! "visual_findings"%string = Some (VList [lit "-"])
       /\ [lit "-"] <> [lit "- **red** car"; lit "- blue sky"].
Proof.
split; [apply contains_sub; reflexivity|].
split; [reflexivity|].
destruct (exec_on_text (G := Z) (scripted car_text) [] ∅ car_text
            (seed 0) eq_refl) as (s & _ & E).
exists (attribution_data car_text s).
split; [exact E|]. split; [|discriminate].
rewrite lookup_visual_findings. reflexivity.
Qed.

(** ** The record as a whole *)

(** C5, as the code has it.  On every text, the empty one and one without
    headers included, no run raises: each returns a record with the six
    keys of [record_keys] and no research findings among them, the two
    scores add up to 100 within 0..100, the evidence fields are the fixed
    placeholders, and the visual findings and the final answer have their
    fallback values when their headers are absent. *)
Theorem aggregator_total {G} `{Generator G} agent prompt media_args text
    (g : G) :
  responds agent prompt media_args text ->
  Forall (fun o => exists d, o = inr d)
    (outcomes (run_agent_and_get_attribution agent prompt media_args))
  /\ exists d v s lines answer,
       fst (exec (run_agent_and_get_attribution agent prompt media_args) g)
         = inr d
       /\ dom d = record_keys
       /\ d !! "research_findings"%string = None
       /\ d !! "visual_score"%string = Some (VInt v)
       /\ d !! "search_score"%string = Some (VInt s)
       /\ v + s = 100 /\ 0 <= v <= 100 /\ 0 <= s <= 100
       /\ d !! "visual_findings"%string = Some (VList lines)
       /\ d !! "final_answer"%string = Some (VStr answer)
       /\ d !! "search_queries"%string
          = Some (VList [lit "(Query 1 - Simulated)";
                         lit "(Query 2 - Simulated)"])
       /\ d !! "search_snippets"%string
          = Some (VList [lit "(Snippet 1 from example.com)";
                         lit "(Snippet 2 from example.org)"])
       /\ (~ sub (header "VISUAL FINDINGS") text ->
           lines = [lit "No specific visual findings detailed."])
       /\ (~ sub (header "FINAL ANSWER") text -> answer = text).
Proof.
intros Hr. split.
- rewrite (outcomes_on_text _ _ _ _ Hr).
  induction (seqZ _ _) as [|s l IH]; simpl; constructor; eauto.
- destruct (exec_on_text _ _ _ _ g Hr) as (s & Hs & E).
  exists (attribution_data text s), (100 - s), s,
    (str_split newline (visual_findings_of text)), (final_answer_of text).
  split; [exact E|]. split; [apply dom_attribution_data|].
  split; [apply lookup_research_findings|].
  split; [apply lookup_visual_score|]. split; [apply lookup_search_score|].
  split; [lia|].
  assert (5 <= s <= 95) as Hb.
  { destruct (draw_bounds_cases text) as [[_ Hb]|[_ Hb]]; rewrite Hb in Hs;
      simpl in Hs; lia. }
  split; [lia|]. split; [lia|].
  split; [apply lookup_visual_findings|].
  split; [apply lookup_final_answer|].
  split; [apply lookup_search_queries|].
  split; [apply lookup_search_snippets|].
  split; intros Ha; apply find_section_None in Ha.
  + unfold visual_findings_of. rewrite Ha. reflexivity.
  + unfold final_answer_of. rewrite Ha. reflexivity.
Qed.

Lemma aggregator_total_witness :
  responds (scripted scenario_c) [] ∅ scenario_c
  /\ Forall (fun o => exists d, o = inr d)
       (outcomes (run_agent_and_get_attribution (scripted scenario_c) [] ∅))
  /\ exists d v s lines answer,
       fst (exec (run_agent_and_get_attribution (scripted scenario_c) [] ∅)
              (seed 0 : Z)) = inr d
       /\ dom d = record_keys
       /\ d !! "research_findings"%string = None
       /\ d !! "visual_score"%string = Some (VInt v)
       /\ d !! "search_score"%string = Some (VInt s)
       /\ v + s = 100 /\ 0 <= v <= 100 /\ 0 <= s <= 100
       /\ d !! "visual_findings"%string = Some (VList lines)
       /\ d !! "final_answer"%string = Some (VStr answer)
       /\ d !! "search_queries"%string
          = Some (VList [lit "(Query 1 - Simulated)";
                         lit "(Query 2 - Simulated)"])
       /\ d !! "search_snippets"%string
          = Some (VList [lit "(Snippet 1 from example.com)";
                         lit "(Snippet 2 from example.org)"])
       /\ (~ sub (header "VISUAL FINDINGS") scenario_c ->
           lines = [lit "No specific visual findings detailed."])
       /\ (~ sub (header "FINAL ANSWER") scenario_c -> answer = scenario_c).
Proof.
split; [reflexivity|].
apply (aggregator_total (G := Z) _ _ _ scenario_c). reflexivity.
Defined.

(** C5, as the specification words it, fails on the empty text: the record
    that comes back is not the complete one, for the research findings,
    whose fallback would be the empty text, have no field in it. *)
Lemma complete_record_counterexample :
  exists d,
    fst (exec (run_agent_and_get_attribution (scripted scenario_c) [] ∅)
           (seed 0 : Z)) = inr d
    /\ d !! "research_findings"%string <> Some (VStr [])
    /\ forall key, is_Some (d !! key) -> key ∈ record_keys.
Proof.
destruct (exec_on_text (G := Z) (scripted scenario_c) [] ∅ scenario_c
            (seed 0) eq_refl) as (s & _ & E).
exists (attribution_data scenario_c s). split; [exact E|].
split; [rewrite lookup_research_findings; discriminate|].
intros key Hk. rewrite <- (dom_attribution_data scenario_c s).
now apply elem_of_dom.
Qed.

(** C6, as the code has it.  Two runs on the same text, whatever agent,
    prompt and media led to it and whatever the states of the generator,
    return records that agree on every field but the two scores; the scores
    come from the same range, and the records are equal exactly when the
    search scores are.  From the same state of the generator, as after
    seeding the module with the same number before each run, the two runs
    agree in everything. *)
Theorem runs_differ_only_in_scores {G} `{Generator G} agent1 agent2 prompt1
    prompt2 media_args1 media_args2 text (g1 g2 : G) :
  responds agent1 prompt1 media_args1 text ->
  responds agent2 prompt2 media_args2 text ->
  exists d1 d2 s1 s2,
    fst (exec (run_agent_and_get_attribution agent1 prompt1 media_args1) g1)
      = inr d1
    /\ fst (exec (run_agent_and_get_attribution agent2 prompt2 media_args2) g2)
       = inr d2
    /\ (forall key : string,
          key <> "visual_score"%string -> key <> "search_score"%string ->
          d1 !! key = d2 !! key)
    /\ d1 !! "search_score"%string = Some (VInt s1)
    /\ d2 !! "search_score"%string = Some (VInt s2)
    /\ d1 !! "visual_score"%string = Some (VInt (100 - s1))
    /\ d2 !! "visual_score"%string = Some (VInt (100 - s2))
    /\ fst (draw_bounds text) <= s1 <= snd (draw_bounds text)
    /\ fst (draw_bounds text) <= s2 <= snd (draw_bounds text)
    /\ (d1 = d2 <-> s1 = s2)
    /\ (g1 = g2 ->
        exec (run_agent_and_get_attribution agent1 prompt1 media_args1) g1
        = exec (run_agent_and_get_attribution agent2 prompt2 media_args2) g2).
Proof.
intros Hr1 Hr2.
destruct (exec_on_text _ _ _ _ g1 Hr1) as (s1 & Hs1 & E1).
destruct (exec_on_text _ _ _ _ g2 Hr2) as (s2 & Hs2 & E2).
exists (attribution_data text s1), (attribution_data text s2), s1, s2.
split; [exact E1|]. split; [exact E2|].
split.
{ intros key Hv Hs. unfold attribution_data.
  rewrite !(lookup_insert_ne _ "visual_score"%string key) by congruence.
  rewrite !(lookup_insert_ne _ "search_score"%string key) by congruence.
  reflexivity. }
split; [apply lookup_search_score|]. split; [apply lookup_search_score|].
split; [apply lookup_visual_score|]. split; [apply lookup_visual_score|].
split; [exact Hs1|]. split; [exact Hs2|].
split.
- split; [|intros ->; reflexivity].
  intros Hd.
  apply (f_equal (fun d : gmap string value => d !! "search_score"%string))
    in Hd.
  rewrite !lookup_search_score in Hd. congruence.
- intros ->.
  now rewrite (run_on_text _ _ _ _ Hr1), (run_on_text _ _ _ _ Hr2).
Qed.

Lemma runs_differ_only_in_scores_witness :
  responds (scripted scenario_a) (lit "What car is this?") ∅ scenario_a
  /\ responds (scripted scenario_a) [] ∅ scenario_a
  /\ exists d1 d2 s1 s2,
       fst (exec
              (run_agent_and_get_attribution (scripted scenario_a)
                 (lit "What car is this?") ∅) (seed 1 : Z)) = inr d1
       /\ fst (exec
                 (run_agent_and_get_attribution (scripted scenario_a) [] ∅)
                 (seed 2 : Z)) = inr d2
       /\ (forall key : string,
             key <> "visual_score"%string -> key <> "search_score"%string ->
             d1 !! key = d2 !! key)
       /\ d1 !! "search_score"%string = Some (VInt s1)
       /\ d2 !! "search_score"%string = Some (VInt s2)
       /\ d1 !! "visual_score"%string = Some (VInt (100 - s1))
       /\ d2 !! "visual_score"%string = Some (VInt (100 - s2))
       /\ fst (draw_bounds scenario_a) <= s1 <= snd (draw_bounds scenario_a)
       /\ fst (draw_bounds scenario_a) <= s2 <= snd (draw_bounds scenario_a)
       /\ (d1 = d2 <-> s1 = s2)
       /\ ((seed 1 : Z) = seed 2 ->
           exec
             (run_agent_and_get_attribution (scripted scenario_a)
                (lit "What car is this?") ∅) (seed 1 : Z)
           = exec
               (run_agent_and_get_attribution (scripted scenario_a) [] ∅)
               (seed 2 : Z)).
Proof.
split; [reflexivity|]. split; [reflexivity|].
apply (runs_differ_only_in_scores (G := Z) _ _ _ _ _ _ scenario_a);
  reflexivity.
Defined.

(** C6, as the specification words it, fails: seeded once, the generator
    moves on with each draw, and the second of two runs on the same text
    returns another search score, hence another record. *)
Lemma one_seed_two_runs_counterexample :
  exists d1 d2 g1 g2,
    exec (run_agent_and_get_attribution (scripted scenario_b) [] ∅)
      (seed 0 : Z) = (inr d1, g1)
    /\ exec (run_agent_and_get_attribution (scripted scenario_b) [] ∅) g1
       = (inr d2, g2)
    /\ d1 !! "search_score"%string = Some (VInt 22)
    /\ d2 !! "search_score"%string = Some (VInt 25)
    /\ d1 <> d2.
Proof.
exists (attribution_data scenario_b 22), (attribution_data scenario_b 25),
  (lcg_next 0), (lcg_next (lcg_next 0)).
split; [reflexivity|]. split; [reflexivity|].
split; [apply lookup_search_score|]. split; [apply lookup_search_score|].
intros Hd.
apply (f_equal (fun d : gmap string value => d !! "search_score"%string))
  in Hd.
rewrite !lookup_search_score in Hd. discriminate.
Qed.

(** C7, as the code has it.  The record has the six keys of [record_keys]
    and none for the research findings: the section is searched for and the
    match is dropped.  When its header is absent that search finds nothing. *)
Theorem research_findings_not_recorded {G} `{Generator G} agent prompt
    media_args text (g : G) :
  responds agent prompt media_args text ->
  exists d,
    fst (exec (run_agent_and_get_attribution agent prompt media_args) g)
      = inr d
    /\ dom d = record_keys
    /\ d !! "research_findings"%string = None
    /\ (~ sub (header "RESEARCH FINDINGS") text ->
        re_search (section_pattern "RESEARCH FINDINGS") text = None).
Proof.
intros Hr. destruct (exec_on_text _ _ _ _ g Hr) as (s & _ & E).
exists (attribution_data text s). split; [exact E|].
split; [apply dom_attribution_data|].
split; [apply lookup_research_findings|].
intros Ha. apply find_section_None in Ha.
rewrite re_search_section, Ha. reflexivity.
Qed.

Lemma research_findings_not_recorded_witness :
  responds (scripted scenario_a) [] ∅ scenario_a
  /\ exists d,
       fst (exec (run_agent_and_get_attribution (scripted scenario_a) [] ∅)
              (seed 0 : Z)) = inr d
       /\ dom d = record_keys
       /\ d !! "research_findings"%string = None
       /\ (~ sub (header "RESEARCH FINDINGS") scenario_a ->
           re_search (section_pattern "RESEARCH FINDINGS") scenario_a = None).
Proof.
split; [reflexivity|].
apply (research_findings_not_recorded (G := Z) _ _ _ scenario_a).
reflexivity.
Defined.

(** C7, as the specification words it, fails: on a text without the header
    "RESEARCH FINDINGS" the record has no research-findings field at all,
    empty or not; its keys are the six of [record_keys]. *)
Lemma research_findings_field_counterexample :
  ~ sub (header "RESEARCH FINDINGS") scenario_b
  /\ exists d,
       fst (exec (run_agent_and_get_attribution (scripted scenario_b) [] ∅)
              (seed 0 : Z)) = inr d
       /\ d !! "research_findings"%string = None
       /\ dom d = record_keys
       /\ "research_findings"%string ∉ record_keys.
Proof.
split; [apply absent_iff; reflexivity|].
destruct (exec_on_text (G := Z) (scripted scenario_b) [] ∅ scenario_b
            (seed 0) eq_refl) as (s & _ & E).
exists (attribution_data scenario_b s). split; [exact E|].
split; [apply lookup_research_findings|].
split; [apply dom_attribution_data|].
unfold record_keys.
rewrite !not_elem_of_union, !not_elem_of_singleton.
repeat split; discriminate.
Qed.

(** * Further properties *)

(** ** The aggregator *)



(** X2.  When the agent raises, or answers with something that is not text,
    the run raises before it draws: the error of the agent passes through
    unchanged, content that is not text gives [TypeError], and the state of
    the generator is the one before the run. *)
Theorem failed_run_draws_nothing {G} `{Generator G} agent prompt media_args
    (g : G) :
  (forall text, ~ responds agent prompt media_args text) ->
  exists e,
    exec (run_agent_and_get_attribution agent prompt media_args) g
      = (inl e, g)
    /\ (run agent prompt media_args = inl e
        \/ (e = TypeError
            /\ run agent prompt media_args = inr {| content := PyNone |})).
Proof.
intros Hn. unfold run_agent_and_get_attribution, responds in *.
destruct (run agent prompt media_args) as [e|[[text|]]].
- exists e. split; [reflexivity | now left].
- exfalso. exact (Hn text eq_refl).
- exists TypeError. split; [reflexivity | now right].
Qed.

Lemma failed_run_draws_nothing_witness :
  (forall text, ~ responds silent [] ∅ text)
  /\ exists e,
       exec (run_agent_and_get_attribution silent [] ∅) (seed 3 : Z)
         = (inl e, seed 3)
       /\ (run silent [] ∅ = inl e
           \/ (e = TypeError /\ run silent [] ∅ = inr {| content := PyNone |})).
Proof.
assert (Hn : forall text, ~ responds silent [] ∅ text)
  by (intros text; discriminate).
split; [exact Hn|].
apply (failed_run_draws_nothing (G := Z)). exact Hn.
Defined.

(** X3.  What the record stores of the answer is taken from the response
    word for word: the final answer is always one connected part of the
    text, and so is every line of the visual findings when the visual
    header is present. *)
Theorem stored_text_is_part_of_response {G} `{Generator G} agent prompt
    media_args text (g : G) :
  responds agent prompt media_args text ->
  exists d answer lines,
    fst (exec (run_agent_and_get_attribution agent prompt media_args) g)
      = inr d
    /\ d !! "final_answer"%string = Some (VStr answer)
    /\ d !! "visual_findings"%string = Some (VList lines)
    /\ sub answer text
    /\ (sub (header "VISUAL FINDINGS") text ->
        Forall (fun line => sub line text) lines).
Proof.
intros Hr. destruct (exec_on_text _ _ _ _ g Hr) as (s & _ & E).
exists (attribution_data text s), (final_answer_of text),
  (str_split newline (visual_findings_of text)).
split; [exact E|]. split; [apply lookup_final_answer|].
split; [apply lookup_visual_findings|].
assert (Hcap : forall h c, find_section h text = Some c -> sub (strip c) text).
{ intros h c Hf.
  destruct (find_section_elim _ _ _ Hf) as (pre & tail & Et & _).
  apply (sub_trans _ c); [apply sub_strip|].
  exists (pre ++ h), tail. rewrite Et at 1. now rewrite <- !app_assoc. }
split.
- unfold final_answer_of.
  destruct (find_section (header "FINAL ANSWER") text) as [c|] eqn:Hf;
    [exact (Hcap _ _ Hf) | apply sub_refl].
- intros Hs. destruct (find_section_present _ _ Hs) as (c & Hf).
  unfold visual_findings_of. rewrite Hf.
  apply List.Forall_forall. intros line Hin.
  exact (sub_trans _ _ _ (sub_str_split _ _ _ Hin) (Hcap _ _ Hf)).
Qed.

Lemma stored_text_is_part_of_response_witness :
  responds (scripted scenario_a) [] ∅ scenario_a
  /\ exists d answer lines,
       fst (exec (run_agent_and_get_attribution (scripted scenario_a) [] ∅)
              (seed 0 : Z)) = inr d
       /\ d !! "final_answer"%string = Some (VStr answer)
       /\ d !! "visual_findings"%string = Some (VList lines)
       /\ sub answer scenario_a
       /\ (sub (header "VISUAL FINDINGS") scenario_a ->
           Forall (fun line => sub line scenario_a) lines).
Proof.
split; [reflexivity|].
apply (stored_text_is_part_of_response (G := Z) _ _ _ scenario_a).
reflexivity.
Defined.

(** X4.  With the visual header present, a blank section gives the list of
    one empty line, not the fallback sentence; a section that is not blank
    gives a list whose first and last lines are not empty, so that empty
    lines stand only between other lines. *)
Theorem visual_findings_edges {G} `{Generator G} agent prompt media_args
    text (g : G) :
  responds agent prompt media_args text ->
  sub (header "VISUAL FINDINGS") text ->
  exists cap lines d,
    re_search (section_pattern "VISUAL FINDINGS") text
      = Some (Match (Some cap))
    /\ fst (exec (run_agent_and_get_attribution agent prompt media_args) g)
       = inr d
    /\ d !! "visual_findings"%string = Some (VList lines)
    /\ (all_space cap -> lines = [[]])
    /\ (~ all_space cap ->
        exists first final,
          head lines = Some first /\ first <> []
          /\ last lines = Some final /\ final <> []).
Proof.
intros Hr Hs.
destruct (find_section_present _ _ Hs) as (cap & Hf).
destruct (exec_on_text _ _ _ _ g Hr) as (s & _ & E).
exists cap, (str_split newline (strip cap)), (attribution_data text s).
split; [rewrite re_search_section, Hf; reflexivity|].
split; [exact E|].
split; [rewrite lookup_visual_findings; unfold visual_findings_of;
        now rewrite Hf|].
split.
- intros Ha. apply strip_nil in Ha. now rewrite Ha.
- intros Hn. rewrite <- strip_nil in Hn.
  destruct (strip_spec cap) as (_ & _ & _ & _ & _ & [Hh Hl]).
  destruct (strip cap) as [|c t] eqn:Et; [congruence|].
  assert (Hc : c <> newline).
  { intros ->. pose proof (Hh _ _ eq_refl) as Hx.
    rewrite isspace_newline in Hx. discriminate. }
  destruct (head_str_split newline c t Hc) as (l & ls & Esp).
  destruct (last_str_split newline (c :: t)) as (final & El & _ & Hcase).
  exists (c :: l), final. rewrite Esp in *.
  split; [reflexivity|]. split; [discriminate|]. split; [exact El|].
  intros ->. destruct Hcase as [[_ Ex]|(stem & Ex)]; [discriminate|].
  specialize (Hl newline stem Ex). rewrite isspace_newline in Hl.
  discriminate.
Qed.

Lemma visual_findings_edges_witness :
  responds (scripted scenario_a) [] ∅ scenario_a
  /\ sub (header "VISUAL FINDINGS") scenario_a
  /\ exists cap lines d,
       re_search (section_pattern "VISUAL FINDINGS") scenario_a
         = Some (Match (Some cap))
       /\ fst (exec
                 (run_agent_and_get_attribution (scripted scenario_a) [] ∅)
                 (seed 0 : Z)) = inr d
       /\ d !! "visual_findings"%string = Some (VList lines)
       /\ (all_space cap -> lines = [[]])
       /\ (~ all_space cap ->
           exists first final,
             head lines = Some first /\ first <> []
             /\ last lines = Some final /\ final <> []).
Proof.
split; [reflexivity|].
assert (Hs : sub (header "VISUAL FINDINGS") scenario_a)
  by (apply contains_sub; reflexivity).
split; [exact Hs|].
apply (visual_findings_edges (G := Z) _ _ _ scenario_a);
  [reflexivity | exact Hs].
Defined.

(** ** The script *)

(** X5.  The suffix of the temporary file is taken from the name of the
    upload without fail: it holds no dot; it is the text after the last dot
    of the name, and the whole name when that has no dot. *)
Theorem suffix_after_last_dot (file_name : str) :
  exists suffix,
    suffix_of file_name = Some suffix
    /\ ~ In "."%char suffix
    /\ ((~ In "."%char file_name /\ suffix = file_name)
        \/ exists stem, file_name = stem ++ "."%char :: suffix).
Proof. apply last_str_split. Qed.

(** X6.  The prompt names the three sections in bold without a colon, and
    the headers the aggregator looks for carry one: whichever of the two
    kinds of media is chosen, such a header stands in the prompt only if it
    stands in the question of the user. *)
Theorem prompt_has_no_parsed_header (media_type user_prompt : str) :
  media_type = lit "Video" \/ media_type = lit "Image" ->
  (forall h, In h headers ->
     sub h (prompt_text (lower media_type) user_prompt) ->
     sub h user_prompt)
  /\ (forall section_name,
        In section_name
          ["VISUAL FINDINGS"; "RESEARCH FINDINGS"; "FINAL ANSWER"]%string ->
        sub (bold ++ lit section_name ++ bold)
          (prompt_text (lower media_type) user_prompt)).
Proof.
intros Hm. split.
- intros h Hh Hs. rewrite prompt_text_seams in Hs.
  assert (Hq : sub h (user_prompt ++ prompt_tail)).
  { destruct Hm as [->| ->]; destruct Hh as [<-|[<-|[<-|[]]]];
      (eapply sub_app_back; [| |exact Hs]; vm_compute; reflexivity). }
  destruct Hh as [<-|[<-|[<-|[]]]];
    (eapply sub_app_front; [| |exact Hq]; vm_compute; reflexivity).
- intros section_name Hn. rewrite prompt_text_seams. apply sub_app_l.
  destruct Hm as [->| ->]; destruct Hn as [<-|[<-|[<-|[]]]];
    apply contains_sub; vm_compute; reflexivity.
Qed.

Lemma prompt_has_no_parsed_header_witness :
  (lit "Video" = lit "Video" \/ lit "Video" = lit "Image")
  /\ (forall h, In h headers ->
        sub h (prompt_text (lower (lit "Video")) (lit "What car is this?")) ->
        sub h (lit "What car is this?"))
  /\ (forall section_name,
        In section_name
          ["VISUAL FINDINGS"; "RESEARCH FINDINGS"; "FINAL ANSWER"]%string ->
        sub (bold ++ lit section_name ++ bold)
          (prompt_text (lower (lit "Video")) (lit "What car is this?"))).
Proof.
split; [now left|].
apply prompt_has_no_parsed_header. now left.
Defined.

(** X7.  Once the button is pressed with a question, the temporary file is
    gone when the script ends, however the analysis ended: gone through,
    failed with an error that is caught and shown, or interrupted by an
    exception that leaves the script.  No file is left under its name, and
    if that name was free before, the files are those from before the run. *)
Theorem temp_file_removed_after_analysis {G} `{Generator G} initialize_agent
    temp_stem w f (st : world G) :
  gemini_api_key w <> [] ->
  uploaded_file w = Some f ->
  button w = true ->
  user_prompt w <> [] ->
  exists suffix shown st' failure,
    suffix_of (file_name f) = Some suffix
    /\ script initialize_agent temp_stem w st = (shown, st', failure)
    /\ files st' !! media_path_of temp_stem suffix = None
    /\ (files st !! media_path_of temp_stem suffix = None ->
        files st' = files st).
Proof.
intros Hkey Hup Hb Hq.
destruct (suffix_of_total (file_name f)) as (suffix & Hsuf).
rewrite (script_with_upload _ _ _ _ _ _ Hkey Hup Hsuf), Hb,
  (bool_decide_eq_false_2 _ Hq). cbn zeta.
eexists suffix, _, _, _. split; [exact Hsuf|]. split; [reflexivity|].
cbn [files]. split; [apply lookup_delete_eq|].
intros Hfree. rewrite delete_insert_eq. now apply delete_id.
Qed.

Lemma temp_file_removed_after_analysis_witness :
  let w := {| gemini_api_key := lit "key"; media_type := lit "Video";
              uploaded_file := Some {| file_name := lit "clip.mp4";
                                       file_read := [] |};
              user_prompt := lit "What car is this?"; button := true |} in
  let f := {| file_name := lit "clip.mp4"; file_read := [] |} in
  gemini_api_key w <> []
  /\ uploaded_file w = Some f
  /\ button w = true
  /\ user_prompt w <> []
  /\ exists suffix shown st' failure,
       suffix_of (file_name f) = Some suffix
       /\ script (fun _ => interrupted (lit "stop")) (lit "/tmp/tmpab12") w
            (World ∅ (seed 0 : Z))
          = (shown, st', failure)
       /\ files st' !! media_path_of (lit "/tmp/tmpab12") suffix = None
       /\ (files (World ∅ (seed 0 : Z))
             !! media_path_of (lit "/tmp/tmpab12") suffix = None ->
           files st' = files (World ∅ (seed 0 : Z))).
Proof.
intros w f.
split; [discriminate|]. split; [reflexivity|]. split; [reflexivity|].
split; [discriminate|].
apply (temp_file_removed_after_analysis (G := Z));
  [discriminate | reflexivity | reflexivity | discriminate].
Defined.

(** X8.  When a file is uploaded and no analysis starts, because the button
    is not pressed or the question is empty, the script leaves the temporary
    file on disk with the bytes of the upload, calls the aggregator not at
    all and leaves the generator as it was. *)
Theorem temp_file_left_without_analysis {G} `{Generator G} initialize_agent
    temp_stem w f (st : world G) :
  gemini_api_key w <> [] ->
  uploaded_file w = Some f ->
  button w = false \/ user_prompt w = [] ->
  exists suffix shown st',
    suffix_of (file_name f) = Some suffix
    /\ script initialize_agent temp_stem w st = (shown, st', None)
    /\ files st'
       = <[media_path_of temp_stem suffix := file_read f]> (files st)
    /\ random_state st' = random_state st
    /\ calls shown = [].
Proof.
intros Hkey Hup Hno.
destruct (suffix_of_total (file_name f)) as (suffix & Hsuf).
rewrite (script_with_upload _ _ _ _ _ _ Hkey Hup Hsuf). cbn zeta.
destruct (button w) eqn:Hb.
- destruct Hno as [Hno|Hq]; [discriminate|].
  rewrite (bool_decide_eq_true_2 _ Hq).
  eexists suffix, _, _. split; [exact Hsuf|]. split; [reflexivity|].
  split; [reflexivity|]. split; [reflexivity|].
  unfold calls. rewrite flat_map_app. fold (calls (page_front w
    (media_path_of temp_stem suffix))). now rewrite calls_page_front.
- eexists suffix, _, _. split; [exact Hsuf|]. split; [reflexivity|].
  split; [reflexivity|]. split; [reflexivity|].
  unfold calls. rewrite flat_map_app. fold (calls (page_front w
    (media_path_of temp_stem suffix))). now rewrite calls_page_front.
Qed.

Lemma temp_file_left_without_analysis_witness :
  let w := {| gemini_api_key := lit "key"; media_type := lit "Image";
              uploaded_file := Some {| file_name := lit "photo.png";
                                       file_read := [] |};
              user_prompt := []; button := true |} in
  let f := {| file_name := lit "photo.png"; file_read := [] |} in
  gemini_api_key w <> []
  /\ uploaded_file w = Some f
  /\ (button w = false \/ user_prompt w = [])
  /\ exists suffix shown st',
       suffix_of (file_name f) = Some suffix
       /\ script (fun _ => silent) (lit "/tmp/tmpab12") w (World ∅ (seed 0 : Z))
          = (shown, st', None)
       /\ files st'
          = <[media_path_of (lit "/tmp/tmpab12") suffix := file_read f]>
              (files (World ∅ (seed 0 : Z)))
       /\ random_state st' = random_state (World ∅ (seed 0 : Z))
       /\ calls shown = [].
Proof.
intros w f.
split; [discriminate|]. split; [reflexivity|]. split; [now right|].
apply (temp_file_left_without_analysis (G := Z));
  [discriminate | reflexivity | now right].
Defined.

(** X9.  When the run of the aggregator raises, because the agent fails or
    its answer is not text, the script shows no result and leaves the
    generator as it was.  If what was raised is an [Exception], the script
    catches it, shows it as an error and ends without raising; if it is not,
    as with an interrupt, the script shows no error and raises it. *)
Theorem analysis_error_is_shown {G} `{Generator G} initialize_agent
    temp_stem w f suffix (st : world G) :
  gemini_api_key w <> [] ->
  uploaded_file w = Some f ->
  suffix_of (file_name f) = Some suffix ->
  button w = true ->
  user_prompt w <> [] ->
  (forall text,
     ~ responds (initialize_agent (gemini_api_key w))
         (prompt_text (lower (media_type w)) (user_prompt w))
         (media_args_of (media_type w)
            (media_object_of (media_type w)
               (media_path_of temp_stem suffix))) text) ->
  exists e shown st' failure,
    fst (exec
           (run_agent_and_get_attribution
              (initialize_agent (gemini_api_key w))
              (prompt_text (lower (media_type w)) (user_prompt w))
              (media_args_of (media_type w)
                 (media_object_of (media_type w)
                    (media_path_of temp_stem suffix))))
           (random_state st)) = inl e
    /\ script initialize_agent temp_stem w st = (shown, st', failure)
    /\ (forall ev, In ev shown -> is_result ev = false)
    /\ random_state st' = random_state st
    /\ (is_exception e = true ->
        failure = None /\ In (st_error (Aggregator e)) shown)
    /\ (is_exception e = false ->
        failure = Some (Aggregator e)
        /\ forall e', ~ In (st_error e') shown).
Proof.
intros Hkey Hup Hsuf Hb Hq Hn.
rewrite (script_with_upload _ _ _ _ _ _ Hkey Hup Hsuf), Hb,
  (bool_decide_eq_false_2 _ Hq). cbn zeta.
destruct (analyze_failed _ _ _ _ (random_state st) Hn) as (e & Ex & _ & Ea).
rewrite Ea, Ex. cbn [fst].
set (front := page_front w (media_path_of temp_stem suffix)).
assert (Hfront : forallb (fun ev =>
          negb (is_result ev)
          && match ev with st_error _ => false | _ => true end)
          front = true).
{ subst front. unfold page_front.
  destruct (bool_decide (media_type w = lit "Video")); reflexivity. }
rewrite forallb_forall in Hfront.
exists e. destruct (is_exception e); cbn [fst snd];
  eexists _, (World _ _), _; (split; [reflexivity|]);
  (split; [reflexivity|]); (split; [|split; [reflexivity|]]).
- intros ev Hin. apply in_app_or in Hin as [Hin|Hin].
  + apply Hfront in Hin. apply andb_true_iff in Hin as [Hin _].
    now apply negb_true_iff.
  + simpl in Hin.
    repeat match goal with
      | Hx : _ \/ _ |- _ => destruct Hx as [Hx|Hx]
      end; try contradiction; subst ev; reflexivity.
- split; [|intros; discriminate]. intros _. split; [reflexivity|].
  apply in_or_app. right. simpl. tauto.
- intros ev Hin. apply in_app_or in Hin as [Hin|Hin].
  + apply Hfront in Hin. apply andb_true_iff in Hin as [Hin _].
    now apply negb_true_iff.
  + simpl in Hin.
    repeat match goal with
      | Hx : _ \/ _ |- _ => destruct Hx as [Hx|Hx]
      end; try contradiction; subst ev; reflexivity.
- split; [intros; discriminate|]. intros _. split; [reflexivity|].
  intros e' Hin. apply in_app_or in Hin as [Hin|Hin].
  + apply Hfront in Hin. apply andb_true_iff in Hin as [_ Hin].
    discriminate.
  + simpl in Hin.
    repeat match goal with
      | Hx : _ \/ _ |- _ => destruct Hx as [Hx|Hx]
      end; try contradiction; discriminate.
Qed.

Lemma analysis_error_is_shown_witness :
  let w := {| gemini_api_key := lit "key"; media_type := lit "Video";
              uploaded_file := Some {| file_name := lit "clip.mp4";
                                       file_read := [] |};
              user_prompt := lit "What car is this?"; button := true |} in
  let f := {| file_name := lit "clip.mp4"; file_read := [] |} in
  let st := World ∅ (seed 0 : Z) in
  let agent := interrupted (lit "stop") in
  gemini_api_key w <> []
  /\ uploaded_file w = Some f
  /\ suffix_of (file_name f) = Some (lit "mp4")
  /\ button w = true
  /\ user_prompt w <> []
  /\ (forall text,
        ~ responds agent
            (prompt_text (lower (media_type w)) (user_prompt w))
            (media_args_of (media_type w)
               (media_object_of (media_type w)
                  (media_path_of (lit "/tmp/tmpab12") (lit "mp4")))) text)
  /\ exists e shown st' failure,
       fst (exec
              (run_agent_and_get_attribution agent
                 (prompt_text (lower (media_type w)) (user_prompt w))
                 (media_args_of (media_type w)
                    (media_object_of (media_type w)
                       (media_path_of (lit "/tmp/tmpab12") (lit "mp4")))))
              (random_state st)) = inl e
       /\ script (fun _ => agent) (lit "/tmp/tmpab12") w st
          = (shown, st', failure)
       /\ (forall ev, In ev shown -> is_result ev = false)
       /\ random_state st' = random_state st
       /\ (is_exception e = true ->
           failure = None /\ In (st_error (Aggregator e)) shown)
       /\ (is_exception e = false ->
           failure = Some (Aggregator e)
           /\ forall e', ~ In (st_error e') shown).
Proof.
intros w f st agent.
split; [discriminate|]. split; [reflexivity|]. split; [reflexivity|].
split; [reflexivity|]. split; [discriminate|].
split; [intros text; discriminate|].
apply (analysis_error_is_shown (G := Z) (fun _ => agent) _ w f);
  [discriminate | reflexivity | reflexivity | reflexivity | discriminate
  | intros text; discriminate].
Defined.

(** X10.  When the agent answers with text, the script shows the record the
    aggregator returned: its final answer, its two scores as the metrics,
    which add up to 100, and as the two progress bars, each a number between
    0 and 100 to be divided by 100; no error is shown, and the generator is
    left in the state after that one run. *)
Theorem analysis_result_is_shown {G} `{Generator G} initialize_agent
    temp_stem w f suffix text (st : world G) :
  gemini_api_key w <> [] ->
  uploaded_file w = Some f ->
  suffix_of (file_name f) = Some suffix ->
  button w = true ->
  user_prompt w <> [] ->
  responds (initialize_agent (gemini_api_key w))
    (prompt_text (lower (media_type w)) (user_prompt w))
    (media_args_of (media_type w)
       (media_object_of (media_type w) (media_path_of temp_stem suffix)))
    text ->
  exists d answer v s shown st',
    exec
      (run_agent_and_get_attribution (initialize_agent (gemini_api_key w))
         (prompt_text (lower (media_type w)) (user_prompt w))
         (media_args_of (media_type w)
            (media_object_of (media_type w)
               (media_path_of temp_stem suffix))))
      (random_state st) = (inr d, random_state st')
    /\ d !! "final_answer"%string = Some (VStr answer)
    /\ d !! "visual_score"%string = Some (VInt v)
    /\ d !! "search_score"%string = Some (VInt s)
    /\ v + s = 100
    /\ script initialize_agent temp_stem w st = (shown, st', None)
    /\ In (st_markdown (VStr answer)) shown
    /\ In (st_metric (InsightScore (media_type w)) (VInt v)
             (lit "Direct Perception")) shown
    /\ In (st_metric ResearchPowerScore (VInt s)
             (lit "External Knowledge")) shown
    /\ In (st_progress v) shown
    /\ In (st_progress s) shown
    /\ (forall n, In (st_progress n) shown -> 0 <= n <= 100)
    /\ (forall e, ~ In (st_error e) shown).
Proof.
intros Hkey Hup Hsuf Hb Hq Hr.
rewrite (script_with_upload _ _ _ _ _ _ Hkey Hup Hsuf), Hb,
  (bool_decide_eq_false_2 _ Hq). cbn zeta.
rewrite (analyze_on_text _ _ _ _ _ _ Hr), (run_on_text _ _ _ _ Hr), exec_text.
cbn [fst snd].
set (s := fst (draw_bounds text) + fst (randbelow 46 (random_state st))).
assert (Hs : 5 <= s <= 95).
{ pose proof (randbelow_range 46 (random_state st) ltac:(lia)) as Hrb.
  subst s. destruct (draw_bounds_cases text) as [[_ ->]|[_ ->]]; simpl; lia. }
set (front := page_front w (media_path_of temp_stem suffix)).
assert (Hfront : forallb (fun ev =>
          match ev with st_progress _ | st_error _ => false | _ => true end)
          front = true).
{ subst front. unfold page_front.
  destruct (bool_decide (media_type w = lit "Video")); reflexivity. }
rewrite forallb_forall in Hfront.
exists (attribution_data text s), (final_answer_of text), (100 - s), s.
eexists _, (World _ _). split; [reflexivity|].
split; [apply lookup_final_answer|]. split; [apply lookup_visual_score|].
split; [apply lookup_search_score|]. split; [lia|].
split; [reflexivity|].
repeat match goal with
  | |- In _ _ /\ _ =>
      split; [apply in_or_app; right; apply in_or_app; left; simpl; tauto|]
  end.
split.
- intros n Hin. apply in_app_or in Hin as [Hin|Hin].
  + apply Hfront in Hin. discriminate.
  + simpl in Hin.
    repeat match goal with
      | Hx : _ \/ _ |- _ => destruct Hx as [Hx|Hx]
      end; try discriminate; try contradiction; injection Hin as <-; lia.
- intros e Hin. apply in_app_or in Hin as [Hin|Hin].
  + apply Hfront in Hin. discriminate.
  + simpl in Hin.
    repeat match goal with
      | Hx : _ \/ _ |- _ => destruct Hx as [Hx|Hx]
      end; try discriminate; contradiction.
Qed.

Lemma analysis_result_is_shown_witness :
  let w := {| gemini_api_key := lit "key"; media_type := lit "Video";
              uploaded_file := Some {| file_name := lit "clip.mp4";
                                       file_read := [] |};
              user_prompt := lit "What car is this?"; button := true |} in
  let f := {| file_name := lit "clip.mp4"; file_read := [] |} in
  let st := World ∅ (seed 0 : Z) in
  let agent := scripted scenario_a in
  gemini_api_key w <> []
  /\ uploaded_file w = Some f
  /\ suffix_of (file_name f) = Some (lit "mp4")
  /\ button w = true
  /\ user_prompt w <> []
  /\ responds agent
       (prompt_text (lower (media_type w)) (user_prompt w))
       (media_args_of (media_type w)
          (media_object_of (media_type w)
             (media_path_of (lit "/tmp/tmpab12") (lit "mp4"))))
       scenario_a
  /\ exists d answer v s shown st',
       exec
         (run_agent_and_get_attribution agent
            (prompt_text (lower (media_type w)) (user_prompt w))
            (media_args_of (media_type w)
               (media_object_of (media_type w)
                  (media_path_of (lit "/tmp/tmpab12") (lit "mp4")))))
         (random_state st) = (inr d, random_state st')
       /\ d !! "final_answer"%string = Some (VStr answer)
       /\ d !! "visual_score"%string = Some (VInt v)
       /\ d !! "search_score"%string = Some (VInt s)
       /\ v + s = 100
       /\ script (fun _ => agent) (lit "/tmp/tmpab12") w st
          = (shown, st', None)
       /\ In (st_markdown (VStr answer)) shown
       /\ In (st_metric (InsightScore (media_type w)) (VInt v)
                (lit "Direct Perception")) shown
       /\ In (st_metric ResearchPowerScore (VInt s)
                (lit "External Knowledge")) shown
       /\ In (st_progress v) shown
       /\ In (st_progress s) shown
       /\ (forall n, In (st_progress n) shown -> 0 <= n <= 100)
       /\ (forall e, ~ In (st_error e) shown).
Proof.
intros w f st agent.
split; [discriminate|]. split; [reflexivity|]. split; [reflexivity|].
split; [reflexivity|]. split; [discriminate|]. split; [reflexivity|].
apply (analysis_result_is_shown (G := Z) (fun _ => agent) _ w f _ scenario_a);
  [discriminate | reflexivity | reflexivity | reflexivity | discriminate
  | reflexivity].
Defined.

(** X11.  Whatever the widgets return, the script calls the aggregator at
    most once: exactly when there is a key, a file, a pressed button and a
    question, and then with the prompt built from the kind of media and the
    question and with the media object of the temporary file.  The script
    raises only when the agent, in that call, raised something that is not
    an [Exception], and then it raises just that.  Without a key or without
    a file it ends without raising and changes neither the files nor the
    generator. *)
Theorem aggregator_called_at_most_once {G} `{Generator G} initialize_agent
    temp_stem w (st : world G) :
  exists shown st' failure,
    script initialize_agent temp_stem w st = (shown, st', failure)
    /\ calls shown
       = match uploaded_file w with
         | Some f =>
             match suffix_of (file_name f) with
             | Some suffix =>
                 if negb (bool_decide (gemini_api_key w = []))
                    && button w
                    && negb (bool_decide (user_prompt w = []))
                 then [(prompt_text (lower (media_type w)) (user_prompt w),
                        media_args_of (media_type w)
                          (media_object_of (media_type w)
                             (media_path_of temp_stem suffix)))]
                 else []
             | None => []
             end
         | None => []
         end
    /\ (gemini_api_key w = [] \/ uploaded_file w = None ->
        st' = st /\ failure = None)
    /\ (forall x, failure = Some x ->
        exists e prompt media_args,
          x = Aggregator e /\ is_exception e = false
          /\ calls shown = [(prompt, media_args)]
          /\ run (initialize_agent (gemini_api_key w)) prompt media_args
             = inl e).
Proof.
destruct (decide (gemini_api_key w = [])) as [Hkey|Hkey].
- unfold script. rewrite (bool_decide_eq_true_2 _ Hkey).
  eexists _, _, _. split; [reflexivity|].
  split; [|split; [split; reflexivity | discriminate]].
  destruct (uploaded_file w) as [f|]; [|reflexivity].
  destruct (suffix_of (file_name f)); reflexivity.
- destruct (uploaded_file w) as [f|] eqn:Hup.
  + destruct (suffix_of_total (file_name f)) as (suffix & Hsuf).
    rewrite (script_with_upload _ _ _ _ _ _ Hkey Hup Hsuf), Hsuf.
    rewrite (bool_decide_eq_false_2 _ Hkey). cbn zeta. cbn [negb andb].
    pose proof (calls_page_front w (media_path_of temp_stem suffix)) as Hf.
    destruct (button w).
    * destruct (decide (user_prompt w = [])) as [Hq|Hq].
      -- rewrite (bool_decide_eq_true_2 _ Hq).
         eexists _, _, _. split; [reflexivity|].
         split; [|split; [intros [?|?]; congruence | discriminate]].
         unfold calls in *. rewrite flat_map_app, Hf. reflexivity.
      -- rewrite (bool_decide_eq_false_2 _ Hq). cbn [negb].
         destruct (responds_or_not (initialize_agent (gemini_api_key w))
                     (prompt_text (lower (media_type w)) (user_prompt w))
                     (media_args_of (media_type w)
                        (media_object_of (media_type w)
                           (media_path_of temp_stem suffix))))
           as [(text & Hr)|Hn].
         ++ rewrite (analyze_on_text _ _ _ _ _ _ Hr). cbn [fst snd].
            eexists _, _, _. split; [reflexivity|].
            split; [|split; [intros [?|?]; congruence | discriminate]].
            unfold calls in *. rewrite !flat_map_app, Hf. reflexivity.
         ++ destruct (analyze_failed _ _ _ _ (random_state st) Hn)
              as (e & _ & Hrun & ->).
            destruct (is_exception e) eqn:He; cbn [fst snd];
              eexists _, _, _; (split; [reflexivity|]);
              (split; [unfold calls in *; rewrite !flat_map_app, Hf;
                       reflexivity|]);
              (split; [intros [?|?]; congruence|]).
            ** discriminate.
            ** intros x [= <-]. eexists e, _, _.
               split; [reflexivity|]. split; [exact He|].
               split; [unfold calls in *; rewrite !flat_map_app, Hf;
                       reflexivity|].
               destruct Hrun as [Hrun| ->]; [exact Hrun | discriminate].
    * eexists _, _, _. split; [reflexivity|].
      split; [|split; [intros [?|?]; congruence | discriminate]].
      unfold calls in *. rewrite flat_map_app, Hf. reflexivity.
  + unfold script. rewrite (bool_decide_eq_false_2 _ Hkey), Hup.
    eexists _, _, _. split; [reflexivity|].
    split; [|split; [split; reflexivity | discriminate]].
    destruct (bool_decide (media_type w = lit "Video")); reflexivity.
Qed.
